(** * ytmusic_downloader: the playlist download orchestrator

    A shallow embedding of [ytmusic_downloader.py]: the name sanitizer, the
    per-item download job [download_video], and the orchestrating loop of
    [main] with its thread pool, followed by the properties of the design
    document, each settled against these definitions.

    Python strings are modelled by [string], read as the UTF-8 encoding of
    the text.  Every character the program looks for (the reserved file name
    characters and the letters of the two error phrases) is ASCII, and UTF-8
    never uses an ASCII byte inside the encoding of another character, so
    searching and replacing on the encoding agrees with the program on the
    text. *)

From Stdlib Require Import String Ascii List Bool Arith Lia.
From stdpp Require Import gmap strings list pretty.

Open Scope string_scope.
Open Scope list_scope.
Open Scope nat_scope.

(** ** Strings *)

Module Str.

(** The character class of the pattern of line 46: the backslash, the
    slash, the colon, the double quote (code 34), the star, the question
    mark, the two angle brackets and the bar. *)
Definition reserved_chars : list ascii :=
  ["\"; "/"; ":"; "034"; "*"; "?"; "<"; ">"; "|"]%char.

Definition reserved (c : ascii) : bool :=
  existsb (Ascii.eqb c) reserved_chars.

(** Length of the longest match of [[...]+] at the start of [s]
    (the quantifier is greedy); 0 when the pattern does not match here. *)
Fixpoint match_len (s : string) : nat :=
  match s with
  | String c rest => if reserved c then S (match_len rest) else 0
  | EmptyString => 0
  end.

(** [re.sub(pattern, '_', s)] for that pattern: scanning from the left, a
    match is replaced by the replacement and the scan resumes after it,
    any other character is copied.  [skip] counts the characters of the
    current match that are still to be passed over. *)
Fixpoint re_sub (skip : nat) (s : string) : string :=
  match s with
  | EmptyString => EmptyString
  | String c rest =>
      match skip with
      | S n => re_sub n rest
      | O =>
          match match_len s with
          | O => String c (re_sub 0 rest)
          | S n => String "_" (re_sub n rest)
          end
      end
  end.

(** [s.lower()] on the ASCII letters. Of the characters outside ASCII
    only U+0130 and U+212A have a lowercase form with an ASCII letter
    ([i] followed by U+0307, and [k]); neither can complete an occurrence
    of the phrases searched for in [download_video], which have no [k]
    and no [i] followed by U+0307. *)
Definition lower_char (c : ascii) : ascii :=
  let n := nat_of_ascii c in
  if ((65 <=? n) && (n <=? 90))%nat then ascii_of_nat (n + 32) else c.

Fixpoint lower (s : string) : string :=
  match s with
  | EmptyString => EmptyString
  | String c rest => String (lower_char c) (lower rest)
  end.

(** [needle in hay] on strings. *)
Fixpoint contains (needle hay : string) : bool :=
  String.prefix needle hay ||
  match hay with
  | EmptyString => false
  | String _ rest => contains needle rest
  end.

Fixpoint no_reserved (s : string) : bool :=
  match s with
  | EmptyString => true
  | String c rest => negb (reserved c) && no_reserved rest
  end.

End Str.

(** line 45 *)
Definition sanitize_folder_name (name : string) : string :=
  Str.re_sub 0 name.


(** ** Python values, exceptions and the answers of the outside world *)

(** The values stored in the dictionaries the program reads: yt-dlp gives a
    text or [None] for the fields of a flat playlist entry. *)
Inductive pyval : Type :=
| PyStr (s : string)
| PyNone.

(** An item descriptor: the dict [entry]; a missing key is a missing binding. *)
Abbreviation entry := (gmap string pyval).

(** The dict [info] returned by [extract_info]: the fields [main] reads.
    [None] stands for a missing key. *)
Record info : Type := Info {
  info_title : option pyval;
  info_entries : option (list entry)
}.

(** The exceptions that occur. [except Exception] catches all of them but
    [KeyboardInterrupt], which derives from [BaseException] only. *)
Inductive pyexn : Type :=
| TypeError (msg : string)
| KeyError (key : string)
| OtherException (msg : string)
| KeyboardInterrupt.

Definition is_Exception (e : pyexn) : bool :=
  match e with
  | KeyboardInterrupt => false
  | _ => true
  end.

(** [str(e)]; for a [KeyError] it is the repr of the key, here of a key
    without quote characters. *)
Definition exn_str (e : pyexn) : string :=
  match e with
  | TypeError msg => msg
  | KeyError key => "'" +:+ key +:+ "'"
  | OtherException msg => msg
  | KeyboardInterrupt => ""
  end.

(** [str(v)], as an f-string formats a value. *)
Definition py_str (v : pyval) : string :=
  match v with
  | PyStr s => s
  | PyNone => "None"
  end.

(** What a thread writes to the terminal or does to the clock. *)
Inductive output : Type :=
| Print (msg : string)
| Rule (msg : string)
| Sleep (secs : nat)
| AddTask (total : nat)
| Advance.

(** The atomic actions of a thread on the state it shares with the others
    and on the outside world. *)
Inductive action : Type :=
| AContains (f : string)
| AAdd (f : string)
| AAcquire
| ARelease
| AEmit (o : output)
| ADownload (url : pyval) (outtmpl : string)
| AExtractInfo (url : string)
| AMkdir (path : string)
| AGlob (path : string)
| ANewIndex (names : gset string)
| ANewExecutor
| ASubmit (e : entry) (folder : string)
| ANextCompleted
| AShutdown.

(** What an action gives back to the thread. *)
Inductive answer : Type :=
| RUnit
| RBool (b : bool)
| RExn (r : option pyexn)
| RInfo (r : pyexn + info)
| RNames (r : pyexn + gset string).

Definition as_bool (r : answer) : bool :=
  match r with
  | RBool b => b
  | _ => false
  end.

Definition as_exn (r : answer) : option pyexn :=
  match r with
  | RExn r => r
  | _ => None
  end.

Definition as_info (r : answer) : pyexn + info :=
  match r with
  | RInfo r => r
  | _ => inr (Info None None)
  end.

Definition as_names (r : answer) : pyexn + gset string :=
  match r with
  | RNames r => r
  | _ => inr ∅
  end.

(** ** Programs: a thread's code as a tree of atomic actions *)

Inductive prog (A : Type) : Type :=
| Ret (a : A)
| Raise (e : pyexn)
| Do (a : action) (k : answer → prog A).

Arguments Ret {A} a.
Arguments Raise {A} e.
Arguments Do {A} a k.

Fixpoint bind {A B : Type} (p : prog A) (f : A → prog B) : prog B :=
  match p with
  | Ret a => f a
  | Raise e => Raise e
  | Do a k => Do a (λ r, bind (k r) f)
  end.

#[export] Instance prog_ret : MRet prog := @Ret.
#[export] Instance prog_bind : MBind prog := λ A B f p, bind p f.

(** [try: p except Exception as e: h e] *)
Fixpoint try_except {A : Type} (p : prog A) (h : pyexn → prog A) : prog A :=
  match p with
  | Ret a => Ret a
  | Raise e => if is_Exception e then h e else Raise e
  | Do a k => Do a (λ r, try_except (k r) h)
  end.

(** [p] followed by [q] on every exit of [p], as a [with] block leaves its
    context manager. *)
Fixpoint finally {A : Type} (p : prog A) (q : prog unit) : prog A :=
  match p with
  | Ret a => bind q (λ _, Ret a)
  | Raise e => bind q (λ _, Raise e)
  | Do a k => Do a (λ r, finally (k r) q)
  end.

Definition perform (a : action) : prog answer := Do a Ret.

Definition raise_if (r : option pyexn) : prog unit :=
  match r with
  | Some e => Raise e
  | None => Ret tt
  end.

Definition raise_or {A : Type} (r : pyexn + A) : prog A :=
  match r with
  | inl e => Raise e
  | inr a => Ret a
  end.

Definition emit (o : output) : prog unit := perform (AEmit o) ≫= λ _, Ret tt.
(** [console.print] of a fixed text, whose tags match: it always renders. *)
Definition console_print_fixed (msg : string) : prog unit := emit (Print msg).
Definition console_rule (msg : string) : prog unit := emit (Rule msg).
Definition time_sleep (secs : nat) : prog unit := emit (Sleep secs).
Definition progress_advance : prog unit := emit Advance.

(** [with console_lock: body] (line 43 declares the lock). *)
Definition with_console_lock {A : Type} (body : prog A) : prog A :=
  perform AAcquire ≫= λ _, finally body (perform ARelease ≫= λ _, Ret tt).

(** [f in existing_files] and [existing_files.add(f)] *)
Definition existing_files_contains (f : string) : prog bool :=
  perform (AContains f) ≫= λ r, Ret (as_bool r).
Definition existing_files_add (f : string) : prog unit :=
  perform (AAdd f) ≫= λ _, Ret tt.

(** [ydl.download([url])] under the options of lines 109-120. *)
Definition ydl_download (url : pyval) (outtmpl : string) : prog unit :=
  perform (ADownload url outtmpl) ≫= λ r, raise_if (as_exn r).

(** [d.get(key, dflt)] and [d[key]] *)
Definition dict_get (d : entry) (key : string) (dflt : pyval) : pyval :=
  default dflt (d !! key).

Definition dict_item (d : entry) (key : string) : prog pyval :=
  match d !! key with
  | Some v => Ret v
  | None => Raise (KeyError key)
  end.

(** A call of [sanitize_folder_name] on a value: [re.sub] raises
    [TypeError] on what is not a string. *)
Definition call_sanitize_folder_name (name : pyval) : prog string :=
  match name with
  | PyStr s => Ret (sanitize_folder_name s)
  | PyNone => Raise (TypeError "expected string or bytes-like object")
  end.

(** [folder / name] for a relative [name] *)
Definition path_join (folder name : string) : string :=
  folder +:+ "/" +:+ name.

(** ** The item download job (lines 97-144) *)

Definition msg_skipping (title : string) : string :=
  ":arrow_forward: [yellow]Skipping already downloaded:[/] [bold]" +:+ title +:+ "[/]".
Definition msg_downloading (title : string) : string :=
  ":arrow_down_small: [cyan]Downloading:[/] [bold]" +:+ title +:+ "[/]".
Definition msg_finished (title : string) : string :=
  ":white_check_mark: [green]Finished:[/] [bold]" +:+ title +:+ "[/]".
Definition msg_unavailable : string :=
  ":warning: [red]Content not available, waiting 10 seconds before continuing...[/]".
Definition msg_error (title err : string) : string :=
  ":cross_mark: [red]Error downloading '" +:+ title +:+ "': " +:+ err +:+ "[/]".
Definition msg_skip_video : string :=
  ":fast_forward: [yellow]Skipping this video.[/]".

(** ** The console *)

(** [console.print] reads its text as markup before it writes anything:
    the texts of this program are f-strings with tags such as [bold] and
    [/], into which a title, a URL, an error text or a path is put as it
    is. A text in which a closing tag closes nothing makes [console.print]
    raise [MarkupError], an [Exception], and nothing is written. Which
    texts those are is the matter of the library: [markup_error] gives the
    message of the error, or [None] for a text that renders.

    The notices of lines 123 and 129 hold the title between the same tags,
    after fixed text whose only tag is closed: the library renders both or
    neither. *)
Class Console : Type := {
  markup_error : string → option string;
  markup_error_finished : ∀ title,
    markup_error (msg_downloading title) = None →
    markup_error (msg_finished title) = None
}.

(** [console.print] of a text with values put into it. *)
Definition console_print {con : Console} (msg : string) : prog unit :=
  match markup_error msg with
  | Some err => Raise (OtherException err)
  | None => emit (Print msg)
  end.

(** The test of lines 135 and 139 on [err = str(e).lower()]. *)
Definition is_transient (err : string) : bool :=
  Str.contains "content isn't available" err || Str.contains "try again later" err.

(** line 98, and again line 210 *)
Definition video_title (e : entry) : pyval :=
  dict_get e "title" (PyStr "unknown_title").

(** lines 99-100, and again lines 210-211: the name of the output file *)
Definition output_filename (e : entry) : prog string :=
  safe_title ← call_sanitize_folder_name (video_title e);
  Ret (safe_title +:+ ".mp3").

Definition download_video {con : Console} (e : entry) (playlist_folder : string)
  : prog bool :=
  let video_title := video_title e in
  filename ← output_filename e;
  dup ← existing_files_contains filename;
  if dup : bool then
    with_console_lock (console_print (msg_skipping (py_str video_title)));;
    Ret true
  else
    let output_path := path_join playlist_folder filename in
    with_console_lock (console_print (msg_downloading (py_str video_title)));;
    try_except
      (url ← dict_item e "url";
       ydl_download url output_path;;
       with_console_lock (console_print (msg_finished (py_str video_title)));;
       existing_files_add filename;;
       Ret true)
      (λ exn,
        let err := Str.lower (exn_str exn) in
        with_console_lock
          (if is_transient err
           then console_print_fixed msg_unavailable
           else console_print (msg_error (py_str video_title) (exn_str exn)));;
        if is_transient err then
          time_sleep 10;;
          with_console_lock (console_print_fixed msg_skip_video);;
          Ret false
        else Ret false).

(** line 146 *)
Definition download_video_threadsafe {con : Console} (e : entry) (playlist_folder : string)
  : prog bool :=
  download_video e playlist_folder.

(** ** The outside world and the shared state *)

(** The retrieval backend and the file system are outside the program: each
    call answers from a state of the outside world and moves it on. A
    download answers [None] when it returns and [Some e] when it raises. *)
Class External (env : Type) : Type := {
  backend_download : pyval → string → env → option pyexn * env;
  backend_extract_info : string → env → (pyexn + info) * env;
  fs_mkdir : string → env → option pyexn * env;
  fs_glob_mp3 : string → env → (pyexn + gset string) * env
}.

(** The result of a job, as its future holds it. *)
Inductive outcome (A : Type) : Type :=
| Returned (a : A)
| Raised (e : pyexn).

Arguments Returned {A} a.
Arguments Raised {A} e.

(** A future of the pool: its work item waits in the queue, runs on a
    worker, or is done. *)
Inductive future : Type :=
| Queued (e : entry) (folder : string)
| Running (p : prog bool)
| Done (r : outcome bool).

(** One entry of the history: the thread and what it did. Thread 0 is the
    main thread, thread [S i] runs the job of future [i]. *)
Inductive event : Type :=
| EContains (f : string) (b : bool)
| EAdd (f : string)
| EAcquire
| ERelease
| EOut (o : output)
| EDownload (url : pyval) (outtmpl : string) (r : option pyexn).

Record world (env : Type) : Type := World {
  existing_files : gset string;
  console_lock : option nat;
  history : list (nat * event);
  futures : list future;
  yielded : nat;
  outside : env
}.

Arguments World {env}.
Arguments existing_files {env}.
Arguments console_lock {env}.
Arguments history {env}.
Arguments futures {env}.
Arguments yielded {env}.
Arguments outside {env}.

(** line 172 *)
Definition max_workers : nat := 4.

Definition is_done (f : future) : bool :=
  match f with
  | Done _ => true
  | _ => false
  end.

Definition is_running (f : future) : bool :=
  match f with
  | Running _ => true
  | _ => false
  end.

Definition is_queued (f : future) : bool :=
  match f with
  | Queued _ _ => true
  | _ => false
  end.

Definition count_done (fs : list future) : nat := length (filter (λ f, is_done f = true) fs).
Definition count_running (fs : list future) : nat := length (filter (λ f, is_running f = true) fs).

Definition final {A : Type} (p : prog A) : option (outcome A) :=
  match p with
  | Ret a => Some (Returned a)
  | Raise e => Some (Raised e)
  | Do _ _ => None
  end.

Section Semantics.
Context {env : Type} {ext : External env} {con : Console}.

Definition log (t : nat) (ev : event) (w : world env) : world env :=
  World (existing_files w) (console_lock w) (history w ++ [(t, ev)])
        (futures w) (yielded w) (outside w).

Definition set_files (s : gset string) (w : world env) : world env :=
  World s (console_lock w) (history w) (futures w) (yielded w) (outside w).

Definition set_lock (l : option nat) (w : world env) : world env :=
  World (existing_files w) l (history w) (futures w) (yielded w) (outside w).

Definition set_futures (fs : list future) (w : world env) : world env :=
  World (existing_files w) (console_lock w) (history w) fs (yielded w) (outside w).

Definition set_yielded (n : nat) (w : world env) : world env :=
  World (existing_files w) (console_lock w) (history w) (futures w) n (outside w).

Definition set_outside (x : env) (w : world env) : world env :=
  World (existing_files w) (console_lock w) (history w) (futures w) (yielded w) x.

(** One atomic action of thread [t]: the answer and the new state, or
    [None] when the thread has to wait. The set operations are atomic
    (one bytecode each under the interpreter lock). A lock is released
    only by the thread inside its [with] block; releasing a free lock does
    not occur and has no transition. *)
Definition act (t : nat) (a : action) (w : world env) : option (answer * world env) :=
  match a with
  | AContains f =>
      let b := bool_decide (f ∈ existing_files w) in
      Some (RBool b, log t (EContains f b) w)
  | AAdd f =>
      Some (RUnit, log t (EAdd f) (set_files ({[f]} ∪ existing_files w) w))
  | AAcquire =>
      match console_lock w with
      | None => Some (RUnit, log t EAcquire (set_lock (Some t) w))
      | Some _ => None
      end
  | ARelease =>
      match console_lock w with
      | Some _ => Some (RUnit, log t ERelease (set_lock None w))
      | None => None
      end
  | AEmit o => Some (RUnit, log t (EOut o) w)
  | ADownload url outtmpl =>
      let '(r, x) := backend_download url outtmpl (outside w) in
      Some (RExn r, log t (EDownload url outtmpl r) (set_outside x w))
  | AExtractInfo url =>
      let '(r, x) := backend_extract_info url (outside w) in
      Some (RInfo r, set_outside x w)
  | AMkdir path =>
      let '(r, x) := fs_mkdir path (outside w) in
      Some (RExn r, set_outside x w)
  | AGlob path =>
      let '(r, x) := fs_glob_mp3 path (outside w) in
      Some (RNames r, set_outside x w)
  | ANewIndex names => Some (RUnit, set_files names w)
  | ANewExecutor => Some (RUnit, set_yielded 0 (set_futures [] w))
  | ASubmit e folder =>
      Some (RUnit, set_futures (futures w ++ [Queued e folder]) w)
  | ANextCompleted =>
      if decide (yielded w < count_done (futures w))
      then Some (RUnit, set_yielded (S (yielded w)) w)
      else None
  | AShutdown =>
      if decide (count_done (futures w) = length (futures w))
      then Some (RUnit, w)
      else None
  end.

(** A thread alone: its program run to the end. [None] when it waits for
    something no other thread is there to provide. *)
Fixpoint run {A : Type} (t : nat) (p : prog A) (w : world env)
  : option (outcome A) * world env :=
  match p with
  | Ret a => (Some (Returned a), w)
  | Raise e => (Some (Raised e), w)
  | Do a k =>
      match act t a w with
      | Some (r, w') => run t (k r) w'
      | None => (None, w)
      end
  end.

(** The threads together: the main thread with its program, and the
    futures of the pool. The pool starts the oldest queued work item when
    fewer than [max_workers] jobs run. *)
Inductive step : prog unit * world env → prog unit * world env → Prop :=
| step_main a k w r w' :
    act 0 a w = Some (r, w') →
    step (Do a k, w) (k r, w')
| step_start main w i e folder :
    futures w !! i = Some (Queued e folder) →
    (∀ j f, j < i → futures w !! j = Some f → is_queued f = false) →
    count_running (futures w) < max_workers →
    step (main, w)
         (main, set_futures (<[i := Running (download_video_threadsafe e folder)]> (futures w)) w)
| step_job main w i a k r w' :
    futures w !! i = Some (Running (Do a k)) →
    act (S i) a w = Some (r, w') →
    step (main, w) (main, set_futures (<[i := Running (k r)]> (futures w')) w')
| step_done main w i p r :
    futures w !! i = Some (Running p) →
    final p = Some r →
    step (main, w) (main, set_futures (<[i := Done r]> (futures w)) w).

Definition steps := rtc step.

(** A step that is the only one the state can take, and a run made of
    such steps: what the program does then, whatever the scheduling. *)
Definition only_step (s s' : prog unit * world env) : Prop :=
  step s s' ∧ ∀ s'', step s s'' → s'' = s'.

Definition dsteps := rtc only_step.

(** The scheduler as a function: thread [t] takes its next step, if it has
    one. Thread 0 is the main thread; thread [S i] starts, continues or
    completes the job of future [i]. *)
Definition none_queued_before (i : nat) (fs : list future) : bool :=
  forallb (λ f, negb (is_queued f)) (take i fs).

Definition exec_thread (t : nat) (s : prog unit * world env)
  : option (prog unit * world env) :=
  let '(main, w) := s in
  match t with
  | O =>
      match main with
      | Do a k =>
          match act 0 a w with
          | Some (r, w') => Some (k r, w')
          | None => None
          end
      | _ => None
      end
  | S i =>
      match futures w !! i with
      | Some (Queued e folder) =>
          if none_queued_before i (futures w)
             && bool_decide (count_running (futures w) < max_workers)
          then Some (main, set_futures
                       (<[i := Running (download_video_threadsafe e folder)]> (futures w)) w)
          else None
      | Some (Running (Do a k)) =>
          match act (S i) a w with
          | Some (r, w') =>
              Some (main, set_futures (<[i := Running (k r)]> (futures w')) w')
          | None => None
          end
      | Some (Running (Ret b)) =>
          Some (main, set_futures (<[i := Done (Returned b)]> (futures w)) w)
      | Some (Running (Raise exn)) =>
          Some (main, set_futures (<[i := Done (Raised exn)]> (futures w)) w)
      | _ => None
      end
  end.

Fixpoint exec_schedule (ts : list nat) (s : prog unit * world env)
  : option (prog unit * world env) :=
  match ts with
  | [] => Some s
  | t :: ts' =>
      match exec_thread t s with
      | Some s' => exec_schedule ts' s'
      | None => None
      end
  end.

(** The state after thread [t] has done [evs] one after the other, none of
    them changing anything but the history. *)
Definition logs (t : nat) (evs : list event) (w : world env) : world env :=
  World (existing_files w) (console_lock w) (history w ++ map (pair t) evs)
        (futures w) (yielded w) (outside w).

End Semantics.

(** ** The orchestrator (lines 170-228 of [main]) *)

Definition nl : string := String "010" "".

Definition get_playlist_info (url : string) : prog info :=
  perform (AExtractInfo url) ≫= λ r, raise_or (as_info r).

Definition path_mkdir (path : string) : prog unit :=
  perform (AMkdir path) ≫= λ r, raise_if (as_exn r).

Definition glob_mp3_names (folder : string) : prog (gset string) :=
  perform (AGlob folder) ≫= λ r, raise_or (as_names r).

Definition executor_submit (e : entry) (folder : string) : prog unit :=
  perform (ASubmit e folder) ≫= λ _, Ret tt.

(** [with ThreadPoolExecutor(max_workers) as executor: body]: leaving the
    block waits for every submitted job. *)
Definition with_executor {A : Type} (body : prog A) : prog A :=
  perform ANewExecutor ≫= λ _, finally body (perform AShutdown ≫= λ _, Ret tt).

(** lines 209-217; [nfut] is the length of the list [futures] so far. *)
Fixpoint submit_loop {con : Console} (entries : list entry) (playlist_folder : string)
    (nfut : nat) : prog nat :=
  match entries with
  | [] => Ret nfut
  | e :: rest =>
      filename ← output_filename e;
      dup ← existing_files_contains filename;
      if dup : bool then
        with_console_lock
          (console_print (msg_skipping (py_str (dict_get e "title" (PyStr "unknown")))));;
        progress_advance;;
        submit_loop rest playlist_folder nfut
      else
        executor_submit e playlist_folder;;
        submit_loop rest playlist_folder (S nfut)
  end.

(** lines 219-220: [as_completed] hands over each future once, when it is
    done. *)
Fixpoint as_completed_loop (nfut : nat) : prog unit :=
  match nfut with
  | O => Ret tt
  | S n =>
      perform ANextCompleted;;
      progress_advance;;
      as_completed_loop n
  end.

(** lines 205-220; of the block [with Progress(...)] only the task and its
    advances are kept, not the drawing of the bar. *)
Definition download_entries {con : Console} (entries : list entry) (playlist_folder : string)
  : prog unit :=
  emit (AddTask (length entries));;
  with_executor
    (nfut ← submit_loop entries playlist_folder 0;
     as_completed_loop nfut).

(** The notices of line 187, line 190 and line 222. *)
Definition msg_no_videos (title : string) : string :=
  ":warning: [yellow]No videos found in playlist: " +:+ title +:+ "[/]" +:+ nl.
Definition msg_playlist (title : string) (n : nat) : string :=
  "[bold green]Playlist:[/] " +:+ title
  +:+ " ([cyan]" +:+ pretty n +:+ " videos[/cyan])" +:+ nl.
Definition msg_completed (title : string) : string :=
  nl +:+ ":white_check_mark: [bold green]Completed playlist:[/] " +:+ title +:+ nl.

(** lines 179-222, the body of the [try] *)
Definition process_playlist {con : Console} (url output_path : string) : prog unit :=
  info ← get_playlist_info url;
  let playlist_title := default (PyStr "UnknownPlaylist") (info_title info) in
  safe_title ← call_sanitize_folder_name playlist_title;
  let playlist_folder := path_join output_path safe_title in
  path_mkdir playlist_folder;;
  let entries := default [] (info_entries info) in
  match entries with
  | [] =>
      console_print (msg_no_videos (py_str playlist_title))
  | _ =>
      console_print (msg_playlist (py_str playlist_title) (length entries));;
      names ← glob_mp3_names playlist_folder;
      perform (ANewIndex names);;
      download_entries entries playlist_folder;;
      console_print (msg_completed (py_str playlist_title))
  end.

Definition msg_rule (idx total : nat) : string :=
  "[bold blue]Playlist " +:+ pretty idx +:+ "/" +:+ pretty total +:+ "[/bold blue]".
Definition msg_url (url : string) : string := "[bold]URL:[/] " +:+ url.
Definition msg_failed (err : string) : string :=
  ":cross_mark: [red]Failed to process playlist:[/] " +:+ err.
Definition msg_next_playlist : string :=
  ":fast_forward: [yellow]Skipping to next playlist...[/]" +:+ nl.


(** lines 174-226: the loop over the playlists, [idx] counting from 1. The
    text of the rule holds two numbers between tags that match: it always
    renders. *)
Fixpoint playlist_loop {con : Console} (total idx : nat) (playlist_urls : list string)
    (output_path : string) : prog unit :=
  match playlist_urls with
  | [] => Ret tt
  | url :: rest =>
      console_rule (msg_rule idx total);;
      console_print (msg_url url);;
      try_except (process_playlist url output_path)
        (λ exn,
          console_print (msg_failed (exn_str exn));;
          console_print_fixed msg_next_playlist);;
      playlist_loop total (S idx) rest output_path
  end.


(** The state in which the program starts, and the states in which it has
    ended: the main thread has returned or raised and no job is left. *)
Definition initial {env : Type} (files : gset string) (x : env) : world env :=
  World files None [] [] 0 x.

Definition terminal {env : Type} (s : prog unit * world env) : Prop :=
  is_Some (final s.1) ∧ count_done (futures s.2) = length (futures s.2).

(** No job of the pool is waiting or running. *)
Definition all_done (fs : list future) : Prop :=
  Forall (λ f, is_done f = true) fs.

(** The two ways in which setting up a collection fails before any item is
    looked at: the URL does not resolve (line 179), or it resolves and the
    directory of the collection cannot be made (line 183). [x'] is the
    outside world after the failure. *)
Definition setup_fails {env : Type} {ext : External env}
    (url output_path : string) (x : env) (exn : pyexn) (x' : env) : Prop :=
  backend_extract_info url x = (inl exn, x')
  ∨ ∃ i title x1,
      backend_extract_info url x = (inr i, x1)
      ∧ default (PyStr "UnknownPlaylist") (info_title i) = PyStr title
      ∧ fs_mkdir (path_join output_path (sanitize_folder_name title)) x1 = (Some exn, x').


(** ** Test doubles for the outside world *)

(** A console that renders every text. *)
Definition renders_all : Console :=
  {| markup_error _ := None;
     markup_error_finished _ _ := eq_refl |}.

(** A console that refuses the text [bad] with the message [err], as the
    library refuses a text in which a closing tag closes nothing, and
    renders every other text. [bad] is no notice of a finished download. *)
Definition refuses (bad err : string)
    (Hbad : ∀ title, String.eqb (msg_finished title) bad = false) : Console :=
  {| markup_error msg := if String.eqb msg bad then Some err else None;
     markup_error_finished title _ :=
       @eq_ind_r bool false (λ b : bool, (if b then Some err else None) = None)
                 eq_refl _ (Hbad title) |}.

(** The errors are those of the library on these texts. *)
Definition skip_notice_refused : Console :=
  refuses (msg_skipping "Best of [/r/music]")
          "closing tag '[/r/music]' at position 70 doesn't match any open tag"
          (λ _, eq_refl).

Definition error_notice_refused : Console :=
  refuses (msg_error "Song A" "ERROR: [/] disk full")
          "closing tag '[/]' at position 66 has nothing to close"
          (λ _, eq_refl).

Definition tmp_notice_refused : Console :=
  refuses (msg_error "Song A" "disk full: [/tmp]")
          "closing tag '[/tmp]' at position 57 doesn't match any open tag"
          (λ _, eq_refl).

Definition url_line_refused : Console :=
  refuses (msg_url "[/a]")
          "closing tag '[/a]' at position 14 doesn't match any open tag"
          (λ _, eq_refl).


(** An outside world without state, answering by fixed tables. *)
Definition scripted
    (download : pyval → string → option pyexn)
    (extract : string → pyexn + info)
    (mkdir : string → option pyexn)
    (glob : string → pyexn + gset string) : External unit :=
  {| backend_download u p x := (download u p, x);
     backend_extract_info u x := (extract u, x);
     fs_mkdir p x := (mkdir p, x);
     fs_glob_mp3 p x := (glob p, x) |}.

(** The outside world in which every call succeeds, every URL resolves to
    [i] and every directory holds [names]. *)
Definition always_ok (i : info) (names : gset string) : External unit :=
  scripted (λ _ _, None) (λ _, inr i) (λ _, None) (λ _, inr names).

(** [phrase] occurs in [msg] in some letter case: a part of [msg] reads
    [phrase] once its capital letters are made small. *)
Definition occurs_nocase (phrase msg : string) : Prop :=
  ∃ pre mid post, msg = pre +:+ mid +:+ post ∧ Str.lower mid = phrase.

(** The events by which a job writes to the index, and by which the
    backend returns from a download without raising. *)
Definition is_add (ev : event) : bool :=
  match ev with
  | EAdd _ => true
  | _ => false
  end.

Definition is_download_ok (ev : event) : bool :=
  match ev with
  | EDownload _ _ None => true
  | _ => false
  end.

Definition is_download (ev : event) : bool :=
  match ev with
  | EDownload _ _ _ => true
  | _ => false
  end.

(** *** Counting the advances of the progress bar *)

Definition is_advance (tev : nat * event) : bool :=
  match tev.2 with
  | EOut Advance => true
  | _ => false
  end.

(** How many times [progress.advance] has been called. *)
Definition advances (h : list (nat * event)) : nat :=
  length (filter (λ tev, is_advance tev = true) h).



(** The actions of a job: on the index, the lock, the terminal other than
    the progress bar, and the backend. *)
Definition job_action (a : action) : bool :=
  match a with
  | AContains _ | AAdd _ | AAcquire | ARelease | ADownload _ _ => true
  | AEmit o => match o with Advance | AddTask _ => false | _ => true end
  | _ => false
  end.

Fixpoint job_like {A : Type} (p : prog A) : Prop :=
  match p with
  | Do a k => job_action a = true ∧ ∀ r, job_like (k r)
  | _ => True
  end.

Definition future_job_like (f : future) : Prop :=
  match f with
  | Running p => job_like p
  | _ => True
  end.

(** *** The discipline of the console lock *)

Definition is_index_action (a : action) : bool :=
  match a with
  | AContains _ | AAdd _ => true
  | _ => false
  end.

Definition is_print (a : action) : bool :=
  match a with
  | AEmit (Print _) => true
  | _ => false
  end.

(** How a program uses [console_lock], whatever the answers to its
    actions: [held] tells whether the thread is inside a [with console_lock]
    block. The lock is taken when not held and released when held, inside
    a block the thread only prints, and it ends outside the block. For a
    job ([strict]) moreover every notification is made inside a block. *)
Fixpoint lock_ok {A : Type} (strict held : bool) (p : prog A) : Prop :=
  match p with
  | Ret _ | Raise _ => held = false
  | Do a k =>
      match a with
      | AAcquire => held = false ∧ ∀ r, lock_ok strict true (k r)
      | ARelease => held = true ∧ ∀ r, lock_ok strict false (k r)
      | _ =>
          ((held = true → is_print a = true)
           ∧ (strict = true → is_print a = true → held = true))
          ∧ ∀ r, lock_ok strict held (k r)
      end
  end.

Fixpoint no_new_executor {A : Type} (p : prog A) : Prop :=
  match p with
  | Do a k => a ≠ ANewExecutor ∧ ∀ r, no_new_executor (k r)
  | _ => True
  end.

(** What stays true of the lock while a collection is processed: each
    thread keeps its discipline, and the lock is held by the thread that is
    inside a block, by that thread only. *)
Definition future_lock_ok (lock : option nat) (i : nat) (f : future) : Prop :=
  match f with
  | Running p => job_like p ∧ lock_ok true (bool_decide (lock = Some (S i))) p
  | _ => lock ≠ Some (S i)
  end.

Definition threads_lock_inv {env : Type} (s : prog unit * world env) : Prop :=
  lock_ok false (bool_decide (console_lock s.2 = Some 0)) s.1
  ∧ no_new_executor s.1
  ∧ (∀ i f, futures s.2 !! i = Some f → future_lock_ok (console_lock s.2) i f)
  ∧ (∀ i, console_lock s.2 = Some (S i) → i < length (futures s.2)).

(** *** Waiting for the futures, and the length of a run *)

(** The main thread asks [as_completed] for no more futures than it has
    submitted: [nf] futures exist and [y] have been handed over when the
    program starts; [Q] is what holds when it ends. *)
Fixpoint waits {A : Type} (Q : outcome A → nat → nat → Prop) (nf y : nat) (p : prog A)
  : Prop :=
  match p with
  | Ret a => Q (Returned a) nf y
  | Raise e => Q (Raised e) nf y
  | Do a k =>
      match a with
      | ASubmit _ _ => ∀ r, waits Q (S nf) y (k r)
      | ANextCompleted => y < nf ∧ ∀ r, waits Q nf (S y) (k r)
      | _ => ∀ r, waits Q nf y (k r)
      end
  end.






(** The code around the two loops: leaving the [with] block of the pool. *)
Definition in_pool (p : prog unit) : prog unit :=
  finally p (perform AShutdown ≫= λ _, Ret tt).

(** lines 208-220, inside the pool *)
Definition executor_body {con : Console} (entries : list entry) (playlist_folder : string)
  : prog unit :=
  in_pool (nfut ← submit_loop entries playlist_folder 0; as_completed_loop nfut).

(** What stays true while the pool of a collection is at work. *)
Definition collection_inv {env : Type} (s : prog unit * world env) : Prop :=
  threads_lock_inv s
  ∧ waits (λ _ _ _, True) (length (futures s.2)) (yielded s.2) s.1.




(** A stretch of history in which the index is not written and no download
    has returned. *)
Definition no_add_no_success (evs : list (nat * event)) : bool :=
  forallb (λ tev, negb (is_add tev.2) && negb (is_download_ok tev.2)) evs.

(** The program makes no new index. *)
Fixpoint no_new_index {A : Type} (p : prog A) : Prop :=
  match p with
  | Do a k =>
      match a with
      | ANewIndex _ => False
      | _ => ∀ r, no_new_index (k r)
      end
  | _ => True
  end.

(** The names written to the index in a stretch of history. *)
Definition added (f : string) (evs : list (nat * event)) : Prop :=
  ∃ t, (t, EAdd f) ∈ evs.

(** A backend whose every download is interrupted by the user. *)
Definition interrupted : External unit :=
  scripted (λ _ _, Some KeyboardInterrupt) (λ _, inr (Info None None))
           (λ _, None) (λ _, inr ∅).


(** An outside world in which the user interrupts every resolving of a
    URL, and one in which no URL resolves. *)
Definition interrupted_resolve : External unit :=
  scripted (λ _ _, None) (λ _, inl KeyboardInterrupt) (λ _, None) (λ _, inr ∅).


(** An item whose title is [None]. *)
Definition untitled (url : string) : entry :=
  {[ "title" := PyNone; "url" := PyStr url ]}.


(** A collection of one item, and an order of the threads in which its
    job runs from its start to its end while the main thread waits. *)
Definition one_song : list entry :=
  [{[ "title" := PyStr "Song A"; "url" := PyStr "u1" ]}].

Definition solo_schedule : list nat :=
  [0; 0; 0; 0; 1; 1; 1; 1; 1; 1; 1; 1; 1; 1; 1; 0; 0; 0].

Definition solo_history : list (nat * event) :=
  [(0, EOut (AddTask 1)); (0, EContains "Song A.mp3" false);
   (1, EContains "Song A.mp3" false);
   (1, EAcquire); (1, EOut (Print (msg_downloading "Song A"))); (1, ERelease);
   (1, EDownload (PyStr "u1") "out/Song A.mp3" None);
   (1, EAcquire); (1, EOut (Print (msg_finished "Song A"))); (1, ERelease);
   (1, EAdd "Song A.mp3");
   (0, EOut Advance)].

(** A download of an item of the collection: the reference is the one of
    the item and the file is in the folder of the collection, under the
    sanitized title of the item. *)
Definition download_of (entries : list entry) (folder : string)
    (url : pyval) (outtmpl : string) : Prop :=
  ∃ e title,
    e ∈ entries
    ∧ video_title e = PyStr title
    ∧ e !! "url" = Some url
    ∧ outtmpl = path_join folder (sanitize_folder_name title +:+ ".mp3").

Definition action_from_collection (entries : list entry) (folder : string)
    (a : action) : Prop :=
  match a with
  | ADownload url outtmpl => download_of entries folder url outtmpl
  | ASubmit e f => e ∈ entries ∧ f = folder
  | _ => True
  end.

(** Whatever the answers, the program downloads and submits items of the
    collection only. *)
Fixpoint from_collection {A : Type} (entries : list entry) (folder : string)
    (p : prog A) : Prop :=
  match p with
  | Do a k => action_from_collection entries folder a
              ∧ ∀ r, from_collection entries folder (k r)
  | _ => True
  end.

Definition future_from_collection (entries : list entry) (folder : string)
    (f : future) : Prop :=
  match f with
  | Queued e f => e ∈ entries ∧ f = folder
  | Running p => from_collection entries folder p
  | Done _ => True
  end.

Definition event_from_collection (entries : list entry) (folder : string)
    (tev : nat * event) : Prop :=
  match tev.2 with
  | EDownload url outtmpl _ => download_of entries folder url outtmpl
  | _ => True
  end.



(** What an action can lead to in downloads: a call of the backend is
    one, and so is the submission of a job. *)
Definition download_cost (a : action) : nat :=
  match a with
  | ADownload _ _ => 1
  | ASubmit _ _ => 1
  | _ => 0
  end.

(** Whatever the answers, the program and the jobs it submits call the
    backend no more than [n] times. *)
Fixpoint downloads_le {A : Type} (n : nat) (p : prog A) : Prop :=
  match p with
  | Do a k => download_cost a ≤ n ∧ ∀ r, downloads_le (n - download_cost a) (k r)
  | _ => True
  end.

Definition future_downloads (f : future) (m : nat) : Prop :=
  match f with
  | Queued _ _ => m = 1
  | Running p => downloads_le m p
  | Done _ => m = 0
  end.

(** The downloads in a stretch of history. *)
Definition downloads (evs : list (nat * event)) : list (nat * event) :=
  filter (λ tev, is_download tev.2 = true) evs.

(** *** Names that the sanitizer does not tell apart *)

Fixpoint all_reserved (s : string) : bool :=
  match s with
  | EmptyString => true
  | String c rest => Str.reserved c && all_reserved rest
  end.

(** Two names of the same length that differ only in which reserved
    character stands at a place. *)
Fixpoint same_shape (s1 s2 : string) : Prop :=
  match s1, s2 with
  | EmptyString, EmptyString => True
  | String c1 r1, String c2 r2 =>
      (c1 = c2 ∨ (Str.reserved c1 = true ∧ Str.reserved c2 = true)) ∧ same_shape r1 r2
  | _, _ => False
  end.

Definition song (title url : string) : entry :=
  {[ "title" := PyStr title; "url" := PyStr url ]}.

(** A backend whose every download raises an error with the message [msg]. *)
Definition always_failing (msg : string) : External unit :=
  scripted (λ _ _, Some (OtherException msg)) (λ _, inr (Info None None))
           (λ _, None) (λ _, inr ∅).

Definition out_song_a : string := "out/Song A.mp3".


(** An outside world in which the URL [[/a]] does not resolve and every
    other URL resolves to the collection [Mix] of one item. *)
Definition tagged_bad_url : External unit :=
  scripted (λ _ _, None)
           (λ url, if String.eqb url "[/a]"
                   then inl (OtherException "Unable to resolve URL")
                   else inr (Info (Some (PyStr "Mix"))
                                  (Some [{[ "title" := PyStr "Song A";
                                            "url" := PyStr "u1" ]}])))
           (λ _, None) (λ _, inr ∅).



(** Two items with the same title, and an order of the threads in which
    both jobs test the index before either writes to it. *)
Definition same_title : list entry := [song "Song A" "u1"; song "Song A" "u2"].

(** The action a future is about to take, when its job is running and has
    not come to its end. *)
Definition next_action (f : future) : option action :=
  match f with
  | Running (Do a _) => Some a
  | _ => None
  end.

Definition racing_before : list (nat * event) :=
  [(0, EOut (AddTask 2)); (0, EContains "Song A.mp3" false);
   (0, EContains "Song A.mp3" false)].

Definition racing_between : list (nat * event) :=
  [(2, EContains "Song A.mp3" false);
   (1, EAcquire); (1, EOut (Print (msg_downloading "Song A"))); (1, ERelease);
   (1, EDownload (PyStr "u1") out_song_a None);
   (1, EAcquire); (1, EOut (Print (msg_finished "Song A"))); (1, ERelease)].

Definition racing_after : list (nat * event) :=
  [(2, EAcquire); (2, EOut (Print (msg_downloading "Song A"))); (2, ERelease);
   (2, EDownload (PyStr "u2") out_song_a None);
   (2, EAcquire); (2, EOut (Print (msg_finished "Song A"))); (2, ERelease);
   (2, EAdd "Song A.mp3");
   (0, EOut Advance); (0, EOut Advance)].

Definition racing_schedule : list nat :=
  [0; 0; 0; 0; 0; 0; 1; 1; 2; 2;
   1; 1; 1; 1; 1; 1; 1; 1; 1;
   2; 2; 2; 2; 2; 2; 2; 2; 2;
   0; 0; 0; 0; 0].

(** * Properties *)

(** ** The name sanitizer *)

Example sanitize_runs :
  sanitize_folder_name "AC/DC: Back?*|in <Black>" = "AC_DC_ Back_in _Black_".
Proof. reflexivity. Qed.

Example lower_mixed : Str.lower "Try AGAIN Later." = "try again later.".
Proof. reflexivity. Qed.

Example contains_middle : Str.contains "again" "try again later" = true.
Proof. reflexivity. Qed.

Example contains_empty : Str.contains "" "" = true.
Proof. reflexivity. Qed.

Lemma reserved_underscore : Str.reserved "_" = false.
Proof. reflexivity. Qed.

Lemma match_len_zero c rest :
  Str.match_len (String c rest) = 0 ↔ Str.reserved c = false.
Proof. simpl. destruct (Str.reserved c); split; congruence. Qed.

(** Whatever the scan has still to pass over, what it writes has no
    reserved character. *)
Lemma re_sub_no_reserved s : ∀ skip, Str.no_reserved (Str.re_sub skip s) = true.
Proof.
  induction s as [|c rest IH]; intros skip; [reflexivity|].
  destruct skip as [|n]; [|apply IH].
  cbn [Str.re_sub]. destruct (Str.match_len (String c rest)) eqn:Hlen.
  - apply match_len_zero in Hlen. cbn [Str.no_reserved]. now rewrite Hlen, IH.
  - cbn [Str.no_reserved]. now rewrite reserved_underscore, IH.
Qed.

(** A name without reserved characters has no match and is copied. *)
Lemma re_sub_fixed s : Str.no_reserved s = true → Str.re_sub 0 s = s.
Proof.
  induction s as [|c rest IH]; [reflexivity|].
  cbn [Str.no_reserved]. intros [Hc Hrest]%andb_true_iff.
  apply negb_true_iff in Hc.
  cbn [Str.re_sub]. rewrite (proj2 (match_len_zero c rest) Hc).
  now rewrite IH.
Qed.

(** C10: the name sanitizer is idempotent: sanitizing a sanitized name
    changes nothing. *)
Theorem sanitize_folder_name_idempotent (s : string) :
  sanitize_folder_name (sanitize_folder_name s) = sanitize_folder_name s.
Proof.
  unfold sanitize_folder_name. apply re_sub_fixed, re_sub_no_reserved.
Qed.

(** ** Searching in strings *)

Lemma app_cons c s t : String c s +:+ t = String c (s +:+ t).
Proof. reflexivity. Qed.

Lemma app_empty t : "" +:+ t = t.
Proof. reflexivity. Qed.

Lemma prefix_spec n h :
  String.prefix n h = true ↔ ∃ post, h = n +:+ post.
Proof.
  revert h. induction n as [|c n IH]; intros h.
  - destruct h; simpl; split; eauto.
  - destruct h as [|d h]; cbn [String.prefix].
    + split; [discriminate|]. intros [post Hpost].
      rewrite app_cons in Hpost. discriminate.
    + destruct (ascii_dec c d) as [->|Hne].
      * rewrite IH. split; intros [post Hpost]; exists post;
          rewrite app_cons in *; congruence.
      * split; [discriminate|]. intros [post Hpost].
        rewrite app_cons in Hpost. congruence.
Qed.

Lemma contains_spec n h :
  Str.contains n h = true ↔ ∃ pre post, h = pre +:+ n +:+ post.
Proof.
  induction h as [|d h IH].
  - cbn [Str.contains]. rewrite orb_false_r, prefix_spec. split.
    + intros [post Hh]. now exists "", post.
    + intros [pre [post Hh]]. destruct pre; [eauto|].
      rewrite app_cons in Hh. discriminate.
  - cbn [Str.contains]. rewrite orb_true_iff, prefix_spec, IH. split.
    + intros [[post Hh]|[pre [post Hh]]].
      * now exists "", post.
      * exists (String d pre), post. rewrite app_cons. now rewrite Hh.
    + intros [pre [post Hh]]. destruct pre as [|c pre].
      * left. eauto.
      * right. exists pre, post. rewrite app_cons in Hh. congruence.
Qed.

Lemma lower_app a b : Str.lower (a +:+ b) = Str.lower a +:+ Str.lower b.
Proof.
  induction a as [|c a IH]; [reflexivity|].
  rewrite app_cons. cbn [Str.lower]. now rewrite IH, app_cons.
Qed.

Lemma lower_split s : ∀ a b, Str.lower s = a +:+ b →
  ∃ s1 s2, s = s1 +:+ s2 ∧ Str.lower s1 = a ∧ Str.lower s2 = b.
Proof.
  induction s as [|c s IH]; intros a b Hs.
  - destruct a; [|rewrite app_cons in Hs; discriminate].
    rewrite app_empty in Hs. subst b. now exists "", "".
  - destruct a as [|d a].
    + rewrite app_empty in Hs. subst b. now exists "", (String c s).
    + rewrite app_cons in Hs. cbn [Str.lower] in Hs. injection Hs as Hd Hrest.
      destruct (IH _ _ Hrest) as [s1 [s2 [-> [H1 H2]]]].
      exists (String c s1), s2. rewrite app_cons. cbn [Str.lower].
      now rewrite Hd, H1, H2.
Qed.

Lemma contains_lower phrase msg :
  Str.contains phrase (Str.lower msg) = true ↔ occurs_nocase phrase msg.
Proof.
  rewrite contains_spec. split.
  - intros [pre' [post' Hm]].
    destruct (lower_split _ _ _ Hm) as [pre [rest [-> [Hpre Hrest]]]].
    destruct (lower_split _ _ _ Hrest) as [mid [post [-> [Hmid Hpost]]]].
    now exists pre, mid, post.
  - intros [pre [mid [post [-> Hmid]]]].
    exists (Str.lower pre), (Str.lower post).
    now rewrite !lower_app, Hmid.
Qed.

(** ** The item download job *)

Ltac world_simpl :=
  cbn;
  cbv [log logs set_files set_lock set_futures set_yielded set_outside
       existing_files console_lock history futures yielded outside];
  rewrite <- ?app_assoc; cbn [app map].

(** Both outcomes of each [console.print] whose text is in sight. *)
Ltac split_prints :=
  repeat match goal with
         | |- context [markup_error ?m] => destruct (markup_error m)
         end.

Section Job.
Context {env : Type} {ext : External env} {con : Console}.
Implicit Types (e : entry) (w : world env) (t : nat).

Lemma console_print_renders msg :
  markup_error msg = None → console_print msg = console_print_fixed msg.
Proof. intros Hm. unfold console_print. now rewrite Hm. Qed.

Lemma console_print_refused msg err :
  markup_error msg = Some err → console_print msg = Raise (OtherException err).
Proof. intros Hm. unfold console_print. now rewrite Hm. Qed.

Lemma output_filename_text e title :
  video_title e = PyStr title →
  output_filename e = Ret (sanitize_folder_name title +:+ ".mp3").
Proof. intros Ht. unfold output_filename. now rewrite Ht. Qed.

Lemma output_filename_none e :
  video_title e = PyNone →
  output_filename e = Raise (TypeError "expected string or bytes-like object").
Proof. intros Ht. unfold output_filename. now rewrite Ht. Qed.


(** The job on an item that is not in the index, has a source reference
    and a download notice that renders, up to the answer of the backend:
    what the [try] block of line 125 starts from. *)
Lemma download_video_reaches_backend e folder title u t w :
  video_title e = PyStr title →
  sanitize_folder_name title +:+ ".mp3" ∉ existing_files w →
  e !! "url" = Some u →
  console_lock w = None →
  markup_error (msg_downloading title) = None →
  let f := sanitize_folder_name title +:+ ".mp3" in
  let '(r, x) := backend_download u (path_join folder f) (outside w) in
  let w1 :=
    World (existing_files w) None
          (history w ++ [(t, EContains f false); (t, EAcquire);
                         (t, EOut (Print (msg_downloading title))); (t, ERelease);
                         (t, EDownload u (path_join folder f) r)])
          (futures w) (yielded w) x in
  run t (download_video e folder) w =
  run t (try_except
           (raise_if r;;
            with_console_lock (console_print (msg_finished title));;
            existing_files_add f;;
            Ret true)
           (λ exn,
             let err := Str.lower (exn_str exn) in
             with_console_lock
               (if is_transient err
                then console_print_fixed msg_unavailable
                else console_print (msg_error title (exn_str exn)));;
             if is_transient err then
               time_sleep 10;;
               with_console_lock (console_print_fixed msg_skip_video);;
               Ret false
             else Ret false)) w1.
Proof.
  intros Ht Hin Hurl Hlock Hd f.
  destruct (backend_download u (path_join folder f) (outside w)) as [r x] eqn:Hb.
  unfold download_video, dict_item.
  rewrite (output_filename_text _ _ Ht), Ht, Hurl.
  cbn [py_str]. rewrite (console_print_renders _ Hd).
  destruct w as [files lock hist futs y x0]. simpl in *. subst lock.
  cbn. rewrite bool_decide_eq_false_2 by done. cbn.
  fold f. rewrite Hb. now world_simpl.
Qed.

(** What the job does when the download raises an exception that
    [except Exception] catches: the branches of lines 132-144. *)
Lemma download_video_backend_error e folder title u exn x t w :
  video_title e = PyStr title →
  sanitize_folder_name title +:+ ".mp3" ∉ existing_files w →
  e !! "url" = Some u →
  console_lock w = None →
  markup_error (msg_downloading title) = None →
  let f := sanitize_folder_name title +:+ ".mp3" in
  backend_download u (path_join folder f) (outside w) = (Some exn, x) →
  is_Exception exn = true →
  let before : list (nat * event) :=
    (history w ++
     [(t, EContains f false); (t, EAcquire);
      (t, EOut (Print (msg_downloading title))); (t, ERelease);
      (t, EDownload u (path_join folder f) (Some exn)); (t, EAcquire)])%list in
  run t (download_video e folder) w =
    if is_transient (Str.lower (exn_str exn)) then
      (Some (Returned false),
       World (existing_files w) None
             (before ++ [(t, EOut (Print msg_unavailable)); (t, ERelease);
                         (t, EOut (Sleep 10)); (t, EAcquire);
                         (t, EOut (Print msg_skip_video)); (t, ERelease)])
             (futures w) (yielded w) x)
    else
      match markup_error (msg_error title (exn_str exn)) with
      | None =>
          (Some (Returned false),
           World (existing_files w) None
                 (before ++ [(t, EOut (Print (msg_error title (exn_str exn))));
                             (t, ERelease)])
                 (futures w) (yielded w) x)
      | Some err =>
          (Some (Raised (OtherException err)),
           World (existing_files w) None (before ++ [(t, ERelease)])
                 (futures w) (yielded w) x)
      end.
Proof.
  intros Ht Hin Hurl Hlock Hd f Hb Hexn before.
  pose proof (download_video_reaches_backend e folder title u t w Ht Hin Hurl Hlock Hd)
    as Hrun.
  cbv zeta in Hrun. fold f in Hrun. rewrite Hb in Hrun. rewrite Hrun. clear Hrun.
  subst before. unfold console_print.
  destruct w as [files lock hist futs y x0]. simpl in *. subst lock.
  cbn. rewrite Hexn.
  destruct (is_transient (Str.lower (exn_str exn))); [now world_simpl|].
  destruct (markup_error (msg_error title (exn_str exn))); now world_simpl.
Qed.



Lemma key_error_url_not_transient :
  is_transient (Str.lower ("'" +:+ "url" +:+ "'")) = false.
Proof. reflexivity. Qed.


(** C9, as the code has it: for an item without the key [title] the file
    name is that of the placeholder [unknown_title]; an empty title is a
    title like any other and gives the file name [.mp3]. *)
Theorem output_filename_placeholder e :
  (e !! "title" = None →
   output_filename e = Ret (sanitize_folder_name "unknown_title" +:+ ".mp3"))
  ∧
  (e !! "title" = Some (PyStr "") → output_filename e = Ret ".mp3").
Proof.
  split; intros Ht.
  - apply output_filename_text. unfold video_title, dict_get. now rewrite Ht.
  - rewrite (output_filename_text e ""); [reflexivity|].
    unfold video_title, dict_get. now rewrite Ht.
Qed.

(** C4: the job writes to the index in one place only, right after the
    download has returned and its completion is notified, and then it adds
    the file name of the item and returns [True]; in every other run of the
    job (duplicate skipped, download failed for whatever reason, title that
    is no text) no download has returned and the index is as the job found
    it. *)
Theorem download_video_index_writes e folder t w :
  ∃ evs : list (nat * event),
    history (run t (download_video e folder) w).2 = history w ++ evs ∧
    ((existing_files (run t (download_video e folder) w).2 = existing_files w
      ∧ no_add_no_success evs = true)
     ∨
     (∃ pre u title,
        let f := sanitize_folder_name title +:+ ".mp3" in
        evs = pre ++ [(t, EDownload u (path_join folder f) None); (t, EAcquire);
                      (t, EOut (Print (msg_finished title))); (t, ERelease);
                      (t, EAdd f)]
        ∧ no_add_no_success pre = true
        ∧ existing_files (run t (download_video e folder) w).2 = {[f]} ∪ existing_files w
        ∧ (run t (download_video e folder) w).1 = Some (Returned true))).
Proof.
  unfold download_video, output_filename, dict_item, console_print.
  destruct w as [files lock hist futs y x0].
  destruct (video_title e) as [title|] eqn:Ht; cbn.
  2: { exists []. rewrite app_nil_r. split; [reflexivity|]. left. now split. }
  destruct (bool_decide (sanitize_folder_name title +:+ ".mp3" ∈ files)) eqn:Hdup;
    destruct lock as [holder|]; cbn.
  1-3: destruct (markup_error (msg_skipping title));
       world_simpl; eexists; (split; [reflexivity|]); left; now split.
  destruct (markup_error (msg_downloading title)) as [bad|] eqn:Hd; cbn.
  { world_simpl. eexists. split; [reflexivity|]. left. now split. }
  rewrite (markup_error_finished _ Hd).
  destruct (e !! "url") as [u|] eqn:Hurl; cbn.
  2: { rewrite key_error_url_not_transient.
       destruct (markup_error (msg_error _ _)); world_simpl;
         eexists; (split; [reflexivity|]); left; now split. }
  destruct (backend_download u _ x0) as [[exn|] x] eqn:Hb; cbn.
  - destruct (is_Exception exn);
      [destruct (is_transient _); [|destruct (markup_error (msg_error _ _))]|];
      world_simpl; eexists; (split; [reflexivity|]); left; now split.
  - world_simpl. eexists. split; [reflexivity|]. right.
    exists [(t, EContains (sanitize_folder_name title +:+ ".mp3") false); (t, EAcquire);
            (t, EOut (Print (msg_downloading title))); (t, ERelease)], u, title.
    now repeat split.
Qed.

End Job.

(** ** The job on concrete items *)

Section JobExamples.
#[local] Existing Instance renders_all.


(** C1 fails on the code: the title [Best of [/r/music]] is in the index
    under its sanitized name, and the console refuses the skip notice (the
    closing tag of the title closes nothing); the job raises that error
    where the claim has it return the skipped-duplicate outcome. *)
Lemma download_video_skip_notice_refused :
  let e := song "Best of [/r/music]" "u1" in
  let w := initial {["Best of [_r_music].mp3"]} tt in
  let r := run (ext := always_ok (Info None None) ∅) 1
               (download_video (con := skip_notice_refused) e "out") w in
  sanitize_folder_name "Best of [/r/music]" +:+ ".mp3" = "Best of [_r_music].mp3"
  ∧ "Best of [_r_music].mp3" ∈ existing_files w
  ∧ r.1 = Some (Raised (OtherException
            "closing tag '[/r/music]' at position 70 doesn't match any open tag"))
  ∧ r.1 ≠ Some (Returned true).
Proof.
  cbv zeta. split; [reflexivity|].
  split; [apply (bool_decide_unpack _); vm_compute; exact I|].
  assert (Hrun :
    (run (ext := always_ok (Info None None) ∅) 1
         (download_video (con := skip_notice_refused)
            (song "Best of [/r/music]" "u1") "out")
         (initial {["Best of [_r_music].mp3"]} tt)).1 =
    Some (Raised (OtherException
            "closing tag '[/r/music]' at position 70 doesn't match any open tag")))
    by (vm_compute; reflexivity).
  split; [exact Hrun|]. rewrite Hrun. discriminate.
Defined.


(** C2 fails on the code: the backend raises an error whose text holds a
    closing tag, the handler of line 132 catches it, and the console
    refuses the notice of the error (line 138): that error leaves the job,
    which returns no value. *)
Lemma download_video_error_notice_refused :
  let r := run (ext := always_failing "ERROR: [/] disk full") 1
               (download_video (con := error_notice_refused) (song "Song A" "u1") "out")
               (initial ∅ tt) in
  is_Exception (OtherException "ERROR: [/] disk full") = true
  ∧ (1, EDownload (PyStr "u1") out_song_a
          (Some (OtherException "ERROR: [/] disk full"))) ∈ history r.2
  ∧ r.1 = Some (Raised (OtherException
            "closing tag '[/]' at position 66 has nothing to close"))
  ∧ ¬ ∃ b, r.1 = Some (Returned b).
Proof.
  cbv zeta.
  assert (Hrun :
    run (ext := always_failing "ERROR: [/] disk full") 1
        (download_video (con := error_notice_refused) (song "Song A" "u1") "out")
        (initial ∅ tt) =
    (Some (Raised (OtherException
             "closing tag '[/]' at position 66 has nothing to close")),
     World ∅ None
           [(1, EContains "Song A.mp3" false); (1, EAcquire);
            (1, EOut (Print (msg_downloading "Song A"))); (1, ERelease);
            (1, EDownload (PyStr "u1") out_song_a
                  (Some (OtherException "ERROR: [/] disk full")));
            (1, EAcquire); (1, ERelease)]
           [] 0 tt))
    by (vm_compute; reflexivity).
  rewrite Hrun. split; [reflexivity|]. split; [|split; [reflexivity|]].
  - apply list_elem_of_In. cbn. do 4 right. left. reflexivity.
  - intros [b Hb]. discriminate.
Defined.


(** C3 fails on the code: the error text [disk full: [/tmp]] has neither
    phrase, and the console refuses the notice of the error (its closing
    tag matches no open tag): the job raises that error where the claim
    has it return the permanent failure. *)
Lemma download_video_permanent_failure_refused :
  let r := run (ext := always_failing "disk full: [/tmp]") 1
               (download_video (con := tmp_notice_refused) (song "Song A" "u1") "out")
               (initial ∅ tt) in
  ¬ occurs_nocase "try again later" "disk full: [/tmp]"
  ∧ ¬ occurs_nocase "content isn't available" "disk full: [/tmp]"
  ∧ r.1 = Some (Raised (OtherException
            "closing tag '[/tmp]' at position 57 doesn't match any open tag"))
  ∧ r.1 ≠ Some (Returned false).
Proof.
  cbv zeta.
  assert (Hrun :
    (run (ext := always_failing "disk full: [/tmp]") 1
         (download_video (con := tmp_notice_refused) (song "Song A" "u1") "out")
         (initial ∅ tt)).1 =
    Some (Raised (OtherException
            "closing tag '[/tmp]' at position 57 doesn't match any open tag")))
    by (vm_compute; reflexivity).
  split; [intros Hocc%contains_lower; vm_compute in Hocc; discriminate|].
  split; [intros Hocc%contains_lower; vm_compute in Hocc; discriminate|].
  split; [exact Hrun|]. rewrite Hrun. discriminate.
Defined.



(** C9 fails on the code: an empty title is not replaced by the
    placeholder, the file name is [.mp3]. *)
Lemma output_filename_empty_title :
  let e : entry := {[ "title" := PyStr ""; "url" := PyStr "u1" ]} in
  e !! "title" = Some (PyStr "")
  ∧ output_filename e = Ret ".mp3"
  ∧ output_filename e ≠ Ret (sanitize_folder_name "unknown_title" +:+ ".mp3").
Proof.
  cbv zeta. split; [reflexivity|]. split; [reflexivity|].
  intros Heq. vm_compute in Heq. discriminate.
Defined.

Lemma output_filename_placeholder_witness :
  output_filename {[ "url" := PyStr "u1" ]} = Ret "unknown_title.mp3"
  ∧ output_filename {[ "title" := PyStr "" ]} = Ret ".mp3".
Proof.
  split.
  - exact (proj1 (output_filename_placeholder {[ "url" := PyStr "u1" ]}) eq_refl).
  - exact (proj2 (output_filename_placeholder {[ "title" := PyStr "" ]}) eq_refl).
Defined.

End JobExamples.

(** ** The threads together *)

Section Threads.
Context {env : Type} {ext : External env} {con : Console}.
Implicit Types (w : world env) (s : prog unit * world env) (fs : list future).

Lemma all_done_lookup fs i f :
  all_done fs → fs !! i = Some f → is_done f = true.
Proof. intros Hall Hi. exact (proj1 (Forall_lookup _ _) Hall i f Hi). Qed.

Lemma all_done_count fs : all_done fs ↔ count_done fs = length fs.
Proof.
  unfold all_done, count_done. induction fs as [|f fs IH].
  - split; [reflexivity | constructor].
  - rewrite Forall_cons, filter_cons. destruct (decide (is_done f = true)) as [Hf|Hf].
    + cbn [length]. rewrite IH. split; [intros [_ ->]; reflexivity | intros [=]; now split].
    + split; [intros [Hd _]; contradiction|].
      intros Hlen. pose proof (length_filter (λ f, is_done f = true) fs) as Hle.
      cbn [length] in Hlen. lia.
Qed.

(** With no job waiting or running, only the main thread can move. *)
Lemma main_only_step a k w r w' :
  all_done (futures w) →
  act 0 a w = Some (r, w') →
  only_step (Do a k, w) (k r, w').
Proof.
  intros Hall Hact. split; [now constructor|].
  intros s'' Hstep. inversion Hstep; subst.
  - congruence.
  - match goal with H : futures w !! _ = Some _ |- _ =>
      apply (all_done_lookup _ _ _ Hall) in H; discriminate end.
  - match goal with H : futures w !! _ = Some _ |- _ =>
      apply (all_done_lookup _ _ _ Hall) in H; discriminate end.
  - match goal with H : futures w !! _ = Some _ |- _ =>
      apply (all_done_lookup _ _ _ Hall) in H; discriminate end.
Qed.

Lemma dsteps_steps s s' : dsteps s s' → steps s s'.
Proof.
  induction 1 as [|a b c [Hab _] _ IH]; [apply rtc_refl|].
  eapply rtc_l; eauto.
Qed.

(** Every run from the start of a forced stretch follows it: it stops
    inside the stretch or goes through its end. *)
Lemma dsteps_through s s' s1 :
  dsteps s s' → steps s s1 → steps s1 s' ∨ steps s' s1.
Proof.
  intros Hd. revert s1. induction Hd as [a|a b c [Hab Honly] Hbc IH]; intros s1 Hs1.
  - now right.
  - inversion Hs1 as [|? b' ? Hab' Hrest]; subst.
    + left. eapply rtc_l; [exact Hab|]. now apply dsteps_steps.
    + apply Honly in Hab'. subst b'. now apply IH.
Qed.

Lemma exec_thread_sound t s s' : exec_thread t s = Some s' → step s s'.
Proof.
  destruct s as [main w]. destruct t as [|i]; cbn [exec_thread].
  - destruct main as [| |a k]; try discriminate.
    destruct (act 0 a w) as [[r w']|] eqn:Hact; [|discriminate].
    intros [= <-]. now constructor.
  - destruct (futures w !! i) as [[e folder|p|r]|] eqn:Hi; try discriminate.
    + destruct (none_queued_before i (futures w)) eqn:Hq; [|discriminate].
      destruct (bool_decide (count_running (futures w) < max_workers)) eqn:Hc;
        [|discriminate].
      apply bool_decide_eq_true_1 in Hc.
      intros [= <-]. apply step_start; [exact Hi| |exact Hc].
      intros j f Hj Hf. unfold none_queued_before in Hq.
      rewrite forallb_forall in Hq.
      apply negb_true_iff, Hq, list_elem_of_In, list_elem_of_lookup.
      exists j. now rewrite lookup_take_lt.
    + destruct p as [b|exn|a k].
      * intros [= <-]. eapply step_done; [exact Hi|reflexivity].
      * intros [= <-]. eapply step_done; [exact Hi|reflexivity].
      * destruct (act (S i) a w) as [[r w']|] eqn:Hact; [|discriminate].
        intros [= <-]. eapply step_job; [exact Hi|exact Hact].
Qed.

Lemma exec_schedule_sound ts : ∀ s s', exec_schedule ts s = Some s' → steps s s'.
Proof.
  induction ts as [|t ts IH]; intros s s'; cbn [exec_schedule].
  - intros [= <-]. apply rtc_refl.
  - destruct (exec_thread t s) as [s1|] eqn:Ht; [|discriminate].
    intros Hrest. eapply rtc_l; [exact (exec_thread_sound _ _ _ Ht)|]. now apply IH.
Qed.



End Threads.

(** ** The progress bar *)

Section Progress.
Context {env : Type} {ext : External env} {con : Console}.
Implicit Types (w : world env) (s : prog unit * world env) (fs : list future).










Lemma act_futures_job_like t a w r w' :
  act t a w = Some (r, w') →
  Forall future_job_like (futures w) → Forall future_job_like (futures w').
Proof.
  destruct a as [f|f| | |o|u p|u|p|p|names| |e folder| |]; cbn [act].
  all: repeat case_match; try discriminate.
  all: intros [= <- <-].
  all: cbv [log set_files set_lock set_futures set_yielded set_outside futures];
       try done.
  intros Hfs. apply Forall_app. split; [exact Hfs|]. now repeat constructor.
Qed.

(** The job does the actions of a job only, whatever the item. *)
Lemma download_video_job_like e folder : job_like (download_video e folder).
Proof.
  unfold download_video, output_filename, dict_item, console_print.
  destruct (video_title e) as [title|]; cbn; [|done].
  split; [done|]. intros r. destruct (as_bool r); cbn.
  { split_prints; cbn; repeat (split; [done|]; intros _); done. }
  split; [done|]. intros _.
  destruct (markup_error (msg_downloading title)) eqn:Hd; cbn;
    repeat (split; [done|]; intros _); [done|].
  rewrite (markup_error_finished _ Hd).
  destruct (e !! "url") as [u|]; cbn.
  - split; [done|]. intros r'. destruct (as_exn r') as [exn|]; cbn.
    + destruct (is_Exception exn); [|done]. cbn.
      split; [done|]. intros _. destruct (is_transient _); cbn;
        split_prints; cbn; repeat (split; [done|]; intros _); done.
    + repeat (split; [done|]; intros _). done.
  - split; [done|]. intros _. rewrite key_error_url_not_transient. cbn.
    split_prints; cbn; repeat (split; [done|]; intros _); done.
Qed.



(** *** A run to the end: each job run to completion as soon as submitted *)



(** The job keeps the discipline of the lock, whatever the item. *)
Lemma download_video_lock_ok e folder : lock_ok true false (download_video e folder).
Proof.
  unfold download_video, output_filename, dict_item, console_print.
  destruct (video_title e) as [title|]; cbn; [|done].
  split; [done|]. intros r. destruct (as_bool r); cbn.
  { split_prints; cbn; repeat (split; [done|]; intros _); done. }
  split; [done|]. intros _.
  destruct (markup_error (msg_downloading title)) eqn:Hd; cbn;
    repeat (split; [done|]; intros _); [done|].
  rewrite (markup_error_finished _ Hd).
  destruct (e !! "url") as [u|]; cbn.
  - split; [done|]. intros r'. destruct (as_exn r') as [exn|]; cbn.
    + destruct (is_Exception exn); [|done]. cbn.
      split; [done|]. intros _. destruct (is_transient _); cbn;
        split_prints; cbn; repeat (split; [done|]; intros _); done.
    + repeat (split; [done|]; intros _). done.
  - split; [done|]. intros _. rewrite key_error_url_not_transient. cbn.
    split_prints; cbn; repeat (split; [done|]; intros _); done.
Qed.

(** A thread that does the actions of a job and keeps the discipline of
    the lock returns or raises when it runs alone, and leaves the lock
    free. *)
Lemma run_returns {A : Type} t (p : prog A) :
  job_like p →
  ∀ strict held w,
    lock_ok strict held p →
    console_lock w = (if held then Some t else None) →
    ∃ r w', run t p w = (Some r, w') ∧ console_lock w' = None ∧ yielded w' = yielded w.
Proof.
  induction p as [b|exn|a k IH]; intros Hjob strict held w Hok Hlock.
  - cbn in Hok. subst held. now exists (Returned b), w.
  - cbn in Hok. subst held. now exists (Raised exn), w.
  - destruct Hjob as [Hja Hk]. destruct w as [files lock hist futs y x0].
    cbn in Hlock. subst lock.
    destruct a as [f|f| | |o|u p|u|p|p|names| |e folder| |]; try discriminate;
      cbn [lock_ok] in Hok; destruct Hok as [Hheld Hok]; cbn [run act outside].
    all: try subst held.
    all: try (destruct (backend_download u p x0) as [r0 x] eqn:Hb).
    all: cbn [console_lock].
    all: match goal with
         | |- ∃ r w', run _ (_ ?ans) ?w1 = _ ∧ _ =>
             edestruct (IH ans (Hk ans) strict _ w1 (Hok ans)) as (r & w' & Hrun & Hl & Hy);
             [reflexivity|];
             exists r, w'; split; [exact Hrun|]; split; [exact Hl|exact Hy]
         end.
Qed.

Lemma download_video_returns e folder t w :
  console_lock w = None →
  ∃ r w', run t (download_video e folder) w = (Some r, w')
          ∧ console_lock w' = None
          ∧ yielded w' = yielded w.
Proof.
  intros Hlock.
  exact (run_returns t _ (download_video_job_like e folder) true false w
           (download_video_lock_ok e folder) Hlock).
Qed.


Lemma main_runs a k w r w' :
  act 0 a w = Some (r, w') → steps (Do a k, w) (k r, w').
Proof. intros Hact. apply rtc_once. now constructor. Qed.







End Progress.

(** ** The orchestrator on concrete collections *)

Section LoopExamples.
#[local] Existing Instance renders_all.


(** C5 fails on the code: the first URL of the batch, [[/a]], does not
    resolve, and the console refuses the line of the URL (line 176, before
    the [try]): the error leaves the loop, and the second collection,
    which would resolve, is not processed. The steps are forced. *)
Lemma playlist_url_line_refused :
  setup_fails (ext := tagged_bad_url) "[/a]" "downloads" tt
              (OtherException "Unable to resolve URL") tt
  ∧ dsteps (ext := tagged_bad_url) (con := url_line_refused)
           (playlist_loop (con := url_line_refused) 2 1 ["[/a]"; "good"] "downloads"
              ≫= Ret,
            initial ∅ tt)
           (Raise (OtherException
                     "closing tag '[/a]' at position 14 doesn't match any open tag"),
            World ∅ None [(0, EOut (Rule (msg_rule 1 2)))] [] 0 tt)
  ∧ ¬ ∃ s, step (ext := tagged_bad_url) (con := url_line_refused)
             (Raise (OtherException
                       "closing tag '[/a]' at position 14 doesn't match any open tag"),
              World ∅ None [(0, EOut (Rule (msg_rule 1 2)))] [] 0 tt) s.
Proof.
  split; [left; reflexivity|]. split.
  - eapply rtc_l; [|apply rtc_refl].
    apply (main_only_step (ext := tagged_bad_url) (con := url_line_refused)
             (AEmit (Rule (msg_rule 1 2)))
             (λ _, Raise (OtherException
                "closing tag '[/a]' at position 14 doesn't match any open tag"))
             (initial ∅ tt) RUnit);
      [constructor|reflexivity].
  - intros [s Hstep]. inversion Hstep; subst;
      match goal with H : _ !! _ = Some _ |- _ => discriminate H end.
Defined.

End LoopExamples.

(** ** The console lock *)

Section Lock.
Context {env : Type} {ext : External env} {con : Console}.
Implicit Types (w : world env) (s : prog unit * world env) (fs : list future).

Lemma lock_ok_bind {A B : Type} strict (f : A → prog B) (p : prog A) :
  (∀ a, lock_ok strict false (f a)) →
  ∀ held, lock_ok strict held p → lock_ok strict held (bind p f).
Proof.
  intros Hf. induction p as [a|e|a k IH]; intros held; cbn [bind lock_ok].
  - intros ->. apply Hf.
  - done.
  - destruct a; intros [Hh Hk]; (split; [exact Hh|]); intros r; apply IH, Hk.
Qed.

Lemma lock_ok_finally {A : Type} strict (q : prog unit) (p : prog A) :
  lock_ok strict false q →
  ∀ held, lock_ok strict held p → lock_ok strict held (finally p q).
Proof.
  intros Hq. induction p as [a|e|a k IH]; intros held; cbn [finally lock_ok].
  - intros ->. now apply lock_ok_bind.
  - intros ->. now apply lock_ok_bind.
  - destruct a; intros [Hh Hk]; (split; [exact Hh|]); intros r; apply IH, Hk.
Qed.

Lemma no_new_executor_bind {A B : Type} (f : A → prog B) (p : prog A) :
  (∀ a, no_new_executor (f a)) → no_new_executor p → no_new_executor (bind p f).
Proof.
  intros Hf. induction p as [a|e|a k IH]; cbn [bind no_new_executor]; [auto|auto|].
  intros [Ha Hk]. split; [exact Ha|]. intros r. apply IH, Hk.
Qed.

Lemma no_new_executor_finally {A : Type} (q : prog unit) (p : prog A) :
  no_new_executor q → no_new_executor p → no_new_executor (finally p q).
Proof.
  intros Hq. induction p as [a|e|a k IH]; cbn [finally no_new_executor].
  - intros _. now apply no_new_executor_bind.
  - intros _. now apply no_new_executor_bind.
  - intros [Ha Hk]. split; [exact Ha|]. intros r. apply IH, Hk.
Qed.

(** The main thread in the loops over the items takes the lock around the
    skip notification only, and makes no new pool. *)
Lemma submit_loop_lock_ok folder entries :
  ∀ nfut, lock_ok false false (submit_loop entries folder nfut)
          ∧ no_new_executor (submit_loop entries folder nfut).
Proof.
  induction entries as [|e rest IH]; intros nfut; [done|].
  cbn [submit_loop]. unfold output_filename, console_print.
  destruct (video_title e) as [title|]; split_prints; cbn; try done.
  all: split.
  all: split; [done|]; intros r; destruct (as_bool r); cbn.
  all: repeat (split; [done|]; intros _); first [done|apply IH].
Qed.

Lemma as_completed_loop_lock_ok n :
  lock_ok false false (as_completed_loop n) ∧ no_new_executor (as_completed_loop n).
Proof.
  induction n as [|n [IH1 IH2]]; [done|]. cbn.
  split; (split; [done|]; intros _; split; [done|]; intros _; assumption).
Qed.

(** What an action does to the lock and to the futures. *)
Lemma act_lock_futures t a w r w' :
  act t a w = Some (r, w') →
  match a with
  | AAcquire =>
      console_lock w = None ∧ console_lock w' = Some t ∧ futures w' = futures w
  | ARelease => console_lock w' = None ∧ futures w' = futures w
  | ANewExecutor => console_lock w' = console_lock w ∧ futures w' = []
  | ASubmit e folder =>
      console_lock w' = console_lock w ∧ futures w' = futures w ++ [Queued e folder]
  | _ => console_lock w' = console_lock w ∧ futures w' = futures w
  end.
Proof.
  destruct a as [f|f| | |o|u p|u|p|p|names| |e folder| |]; cbn [act].
  all: repeat case_match; try discriminate.
  all: intros [= <- <-]; cbn; auto.
Qed.

Lemma future_lock_ok_other lock lock' i f :
  lock ≠ Some (S i) → lock' ≠ Some (S i) →
  future_lock_ok lock i f → future_lock_ok lock' i f.
Proof.
  intros Hl Hl'. destruct f as [e folder|p|r]; cbn; [done| |done].
  now rewrite !bool_decide_eq_false_2.
Qed.

Lemma step_threads_lock_inv s s' :
  step s s' → threads_lock_inv s → threads_lock_inv s'.
Proof.
  intros Hstep (Hmain & Hnew & Hfut & Hbound).
  destruct Hstep as [a k w r w' Hact|main w i e folder Hi Hfirst Hcount
                    |main w i a k r w' Hi Hact|main w i p r Hi Hfin];
    unfold threads_lock_inv, set_futures; cbn [fst snd console_lock futures] in *.
  - pose proof (act_lock_futures _ _ _ _ _ Hact) as Hlf.
    destruct Hnew as [Hne Hnew].
    destruct a as [f|f| | |o|u p|u|p|p|names| |e folder| |]; try done;
      cbn [lock_ok] in Hmain; destruct Hmain as [Hheld Hmain].
    all: try (destruct Hlf as [Hl' Hf']; rewrite Hl', Hf';
              split; [apply Hmain|]; split; [apply Hnew|]; split; [|exact Hbound];
              exact Hfut).
    + destruct Hlf as (Hl & Hl' & Hf'). rewrite Hl', Hf'. rewrite Hl in *.
      split; [apply Hmain|]. split; [apply Hnew|]. split; [|done].
      intros i f Hi. eapply future_lock_ok_other; [| |exact (Hfut i f Hi)]; done.
    + destruct Hlf as (Hl' & Hf'). rewrite Hl', Hf'.
      apply bool_decide_eq_true_1 in Hheld. rewrite Hheld in *.
      split; [apply Hmain|]. split; [apply Hnew|]. split; [|done].
      intros i f Hi. eapply future_lock_ok_other; [| |exact (Hfut i f Hi)]; done.
    + destruct Hlf as [Hl' Hf']. rewrite Hl', Hf'.
      split; [apply Hmain|]. split; [apply Hnew|]. split.
      * intros i f Hi. apply lookup_app_Some in Hi as [Hi|[Hlen Hi]]; [now apply Hfut|].
        destruct (i - length (futures w)) as [|n] eqn:Hn; [|now destruct n].
        injection Hi as <-. cbn. intros Hl. apply Hbound in Hl. lia.
      * intros i Hl. apply Hbound in Hl. rewrite length_app. lia.
  - split; [exact Hmain|]. split; [exact Hnew|]. split.
    + intros j f Hj. destruct (decide (i = j)) as [<-|Hne].
      * rewrite list_lookup_insert_eq in Hj by (eapply lookup_lt_Some, Hi).
        injection Hj as <-. pose proof (Hfut i _ Hi) as Hl. cbn in Hl |- *.
        rewrite bool_decide_eq_false_2 by exact Hl.
        split; [apply download_video_job_like|apply download_video_lock_ok].
      * rewrite list_lookup_insert_ne in Hj by exact Hne. now apply Hfut.
    + intros j Hl. rewrite length_insert. now apply Hbound.
  - pose proof (act_lock_futures _ _ _ _ _ Hact) as Hlf.
    pose proof (Hfut i _ Hi) as [[Hja Hk] Hok]. cbn [lock_ok] in Hok.
    assert (Hlen : i < length (futures w)) by (eapply lookup_lt_Some, Hi).
    destruct a as [f|f| | |o|u p|u|p|p|names| |e folder| |]; try discriminate;
      destruct Hok as [Hheld Hok].
    all: try (destruct Hlf as [Hl' Hf']; rewrite Hl', Hf';
              split; [exact Hmain|]; split; [exact Hnew|]; split;
              [|intros j Hl; rewrite length_insert; now apply Hbound];
              intros j f' Hj; destruct (decide (i = j)) as [<-|Hne];
              [rewrite list_lookup_insert_eq in Hj by exact Hlen; injection Hj as <-;
               split; [apply Hk|apply Hok]
              |rewrite list_lookup_insert_ne in Hj by exact Hne; now apply Hfut]).
    + destruct Hlf as (Hl & Hl' & Hf'). rewrite Hl', Hf'. rewrite Hl in *.
      split; [exact Hmain|]. split; [exact Hnew|]. split.
      * intros j f' Hj. destruct (decide (i = j)) as [<-|Hne].
        -- rewrite list_lookup_insert_eq in Hj by exact Hlen. injection Hj as <-.
           cbn. rewrite bool_decide_eq_true_2 by done. split; [apply Hk|apply Hok].
        -- rewrite list_lookup_insert_ne in Hj by exact Hne.
           eapply future_lock_ok_other; [| |exact (Hfut j f' Hj)]; congruence.
      * intros j [= <-]. now rewrite length_insert.
    + destruct Hlf as (Hl' & Hf'). rewrite Hl', Hf'.
      apply bool_decide_eq_true_1 in Hheld. rewrite Hheld in *.
      split; [exact Hmain|]. split; [exact Hnew|]. split; [|done].
      intros j f' Hj. destruct (decide (i = j)) as [<-|Hne].
      * rewrite list_lookup_insert_eq in Hj by exact Hlen. injection Hj as <-.
        cbn. rewrite bool_decide_eq_false_2 by done. split; [apply Hk|apply Hok].
      * rewrite list_lookup_insert_ne in Hj by exact Hne.
        eapply future_lock_ok_other; [| |exact (Hfut j f' Hj)]; congruence.
  - split; [exact Hmain|]. split; [exact Hnew|]. split.
    + intros j f Hj. destruct (decide (i = j)) as [<-|Hne].
      * rewrite list_lookup_insert_eq in Hj by (eapply lookup_lt_Some, Hi).
        injection Hj as <-. pose proof (Hfut i _ Hi) as [_ Hok]. cbn.
        destruct p as [b|exn|a k]; [| |discriminate]; cbn in Hok;
          now apply bool_decide_eq_false_1 in Hok.
      * rewrite list_lookup_insert_ne in Hj by exact Hne. now apply Hfut.
    + intros j Hl. rewrite length_insert. now apply Hbound.
Qed.

Lemma steps_threads_lock_inv s s' :
  steps s s' → threads_lock_inv s → threads_lock_inv s'.
Proof. induction 1; eauto using step_threads_lock_inv. Qed.

Lemma only_step_inv s s' s1 : only_step s s' → steps s s1 → s1 = s ∨ steps s' s1.
Proof.
  intros [_ Honly] Hsteps. inversion Hsteps as [|? s2 ? Hstep Hrest]; subst; [now left|].
  right. now rewrite <- (Honly _ Hstep).
Qed.

(** C8, as the code has it: [console_lock] guards the notifications and
    nothing else. While a collection is processed, a job that is about to
    print holds the lock, so no two jobs are about to print at once; a job
    that is about to test the index or to write to it does not hold the
    lock. Each test and each write is one atomic step, and nothing keeps
    the steps of another job from falling between the test and the write
    of a job. *)
Theorem console_lock_guards_notifications_only entries folder w s :
  console_lock w = None →
  all_done (futures w) →
  steps (download_entries entries folder, w) s →
  ∀ i a k, futures s.2 !! i = Some (Running (Do a k)) →
    (is_print a = true → console_lock s.2 = Some (S i))
    ∧ (is_index_action a = true → console_lock s.2 ≠ Some (S i))
    ∧ (∀ j a' k', futures s.2 !! j = Some (Running (Do a' k')) →
                  is_print a = true → is_print a' = true → i = j).
Proof.
  intros Hlock Hdone Hsteps.
  set (q := Do AShutdown (λ _, Ret tt) : prog unit).
  set (body := finally (bind (submit_loop entries folder 0) as_completed_loop) q).
  assert (Hprog : download_entries entries folder =
                  Do (AEmit (AddTask (length entries))) (λ _, Do ANewExecutor (λ _, body)))
    by reflexivity.
  rewrite Hprog in Hsteps. clear Hprog.
  assert (Hinv : threads_lock_inv s
                 ∨ all_done (futures s.2)).
  { destruct w as [files lock hist futs y x0]. cbn in Hlock, Hdone. subst lock.
    eapply only_step_inv in Hsteps; [|apply main_only_step; [exact Hdone|reflexivity]].
    destruct Hsteps as [->|Hsteps]; [now right|].
    eapply only_step_inv in Hsteps; [|apply main_only_step; [exact Hdone|reflexivity]].
    destruct Hsteps as [->|Hsteps]; [now right|].
    left. eapply steps_threads_lock_inv; [exact Hsteps|].
    split; [|split; [|split]]; cbn.
    - apply lock_ok_finally; [done|]. apply lock_ok_bind.
      + intros n. apply as_completed_loop_lock_ok.
      + apply submit_loop_lock_ok.
    - apply no_new_executor_finally; [done|]. apply no_new_executor_bind.
      + intros n. apply as_completed_loop_lock_ok.
      + apply submit_loop_lock_ok.
    - intros i f Hi. discriminate.
    - intros i Hl. discriminate. }
  intros i a k Hi.
  destruct Hinv as [(_ & _ & Hfut & _)|Hall].
  2: { apply (all_done_lookup _ _ _ Hall) in Hi. discriminate. }
  assert (Hheld : ∀ j a' k', futures s.2 !! j = Some (Running (Do a' k')) →
            (is_print a' = true → console_lock s.2 = Some (S j))
            ∧ (is_index_action a' = true → console_lock s.2 ≠ Some (S j))).
  { intros j a' k' Hj. destruct (Hfut j _ Hj) as [_ Hok].
    destruct a' as [f|f| | |[m|m|n|n|]|u p|u|p|p|names| |e' folder'| |];
      cbn in Hok |- *; destruct Hok as [Hg _]; split; try discriminate;
      intros _; destruct Hg as [Hin Hout].
    - intros Hl. rewrite bool_decide_eq_true_2 in Hin by exact Hl.
      now specialize (Hin eq_refl).
    - intros Hl. rewrite bool_decide_eq_true_2 in Hin by exact Hl.
      now specialize (Hin eq_refl).
    - specialize (Hout eq_refl eq_refl). now apply bool_decide_eq_true_1 in Hout. }
  destruct (Hheld i a k Hi) as [Hp Hx]. split; [exact Hp|]. split; [exact Hx|].
  intros j a' k' Hj Hpa Hpa'. apply Hp in Hpa.
  apply (proj1 (Hheld j a' k' Hj)) in Hpa'. congruence.
Qed.

End Lock.

Section LockExamples.
#[local] Existing Instance renders_all.

(** C8 fails on the code: with two items of the same title, the second job
    tests the index between the test and the write of the first; both
    find the file name missing and both download to the same file. *)
Lemma check_then_insert_interleaves :
  ∃ s,
    steps (ext := always_ok (Info None None) ∅)
          (download_entries same_title "out", initial ∅ tt) s
    ∧ terminal s
    ∧ history s.2 = racing_before ++ [(1, EContains "Song A.mp3" false)]
                    ++ racing_between ++ [(1, EAdd "Song A.mp3")] ++ racing_after
    ∧ (2, EContains "Song A.mp3" false) ∈ racing_between
    ∧ (1, EDownload (PyStr "u1") out_song_a None) ∈ racing_between
    ∧ (2, EDownload (PyStr "u2") out_song_a None) ∈ racing_after.
Proof.
  assert (Hrun :
    exec_schedule (ext := always_ok (Info None None) ∅) racing_schedule
      (download_entries same_title "out", initial ∅ tt) =
    Some (Ret tt,
          World {["Song A.mp3"]} None
                (racing_before ++ [(1, EContains "Song A.mp3" false)]
                 ++ racing_between ++ [(1, EAdd "Song A.mp3")] ++ racing_after)
                [Done (Returned true); Done (Returned true)] 2 tt))
    by (vm_compute; reflexivity).
  eexists. split; [exact (exec_schedule_sound _ _ _ Hrun)|].
  split; [split; [now eexists|reflexivity]|].
  split; [reflexivity|].
  split; [|split]; unfold racing_between, racing_after; repeat constructor.
Defined.

Lemma next_action_running (fs : list future) (i : nat) a :
  fs !! i ≫= next_action = Some a → ∃ k, fs !! i = Some (Running (Do a k)).
Proof.
  destruct (fs !! i) as [[e folder|[b|exn|a' k]|r]|]; try discriminate.
  intros [= <-]. now exists k.
Qed.

Lemma console_lock_guards_notifications_only_witness :
  ∃ s k1 k2,
    steps (ext := always_ok (Info None None) ∅)
          (download_entries same_title "out", initial ∅ tt) s
    ∧ futures s.2 !! 0 =
        Some (Running (Do (AEmit (Print (msg_downloading "Song A"))) k1))
    ∧ futures s.2 !! 1 = Some (Running (Do (AContains "Song A.mp3") k2))
    ∧ console_lock s.2 = Some 1
    ∧ console_lock s.2 ≠ Some 2.
Proof.
  assert (Hobs :
    match exec_schedule (ext := always_ok (Info None None) ∅)
            [0; 0; 0; 0; 0; 0; 1; 1; 1; 2]
            (download_entries same_title "out", initial ∅ tt) with
    | Some s => (futures s.2 !! 0 ≫= next_action, futures s.2 !! 1 ≫= next_action)
    | None => (None, None)
    end = (Some (AEmit (Print (msg_downloading "Song A"))),
           Some (AContains "Song A.mp3")))
    by (vm_compute; reflexivity).
  destruct (exec_schedule (ext := always_ok (Info None None) ∅)
              [0; 0; 0; 0; 0; 0; 1; 1; 1; 2]
              (download_entries same_title "out", initial ∅ tt)) as [s|] eqn:Hs;
    [|discriminate].
  injection Hobs as H0 H1.
  destruct (next_action_running _ _ _ H0) as [k1 Hk1].
  destruct (next_action_running _ _ _ H1) as [k2 Hk2].
  pose proof (exec_schedule_sound _ _ _ Hs) as Hsteps.
  pose proof (console_lock_guards_notifications_only
                (ext := always_ok (Info None None) ∅)
                same_title "out" (initial ∅ tt) s eq_refl (Forall_nil_2 _) Hsteps)
    as Hlock.
  exists s, k1, k2. split; [exact Hsteps|].
  split; [exact Hk1|]. split; [exact Hk2|]. split.
  - exact (proj1 (Hlock 0 _ _ Hk1) eq_refl).
  - exact (proj1 (proj2 (Hlock 1 _ _ Hk2)) eq_refl).
Defined.

End LockExamples.

(** ** Every run comes to its end *)

Section Runs.
Context {env : Type} {ext : External env} {con : Console}.
Implicit Types (w : world env) (s : prog unit * world env) (fs : list future).

Lemma as_completed_loop_waits n :
  ∀ nf y, y + n ≤ nf → waits (λ _ _ _, True) nf y (in_pool (as_completed_loop n)).
Proof.
  induction n as [|n IH]; intros nf y Hle; [now cbn|]. cbn.
  split; [lia|]. intros _ _. apply IH. lia.
Qed.

Lemma submit_loop_waits folder entries :
  ∀ nfut nf y, y + nfut ≤ nf →
    waits (λ _ _ _, True) nf y
          (in_pool (submit_loop entries folder nfut ≫= as_completed_loop)).
Proof.
  induction entries as [|e rest IH]; intros nfut nf y Hle.
  { now apply as_completed_loop_waits. }
  cbn [submit_loop]. unfold output_filename, console_print.
  destruct (video_title e) as [title|]; split_prints; cbn; try done.
  all: intros r; destruct (as_bool r); cbn.
  all: repeat intros _; first [done | apply IH; lia].
Qed.

Lemma executor_body_waits entries folder :
  waits (λ _ _ _, True) 0 0 (executor_body entries folder).
Proof. apply (submit_loop_waits folder entries 0 0 0). lia. Qed.

Lemma act_yielded t a w r w' :
  act t a w = Some (r, w') →
  match a with
  | ANextCompleted =>
      yielded w < count_done (futures w) ∧ yielded w' = S (yielded w)
  | ANewExecutor => yielded w' = 0
  | _ => yielded w' = yielded w
  end.
Proof.
  destruct a as [f|f| | |o|u p|u|p|p|names| |e folder| |]; cbn [act].
  all: repeat case_match; try discriminate.
  all: intros [= <- <-]; cbn; auto.
Qed.

Lemma step_collection_inv s s' :
  step s s' → collection_inv s → collection_inv s'.
Proof.
  intros Hstep [Hlock Hwait]. split; [eapply step_threads_lock_inv; eauto|].
  destruct Hlock as (_ & Hnew & Hfut & _).
  destruct Hstep as [a k w r w' Hact|main w i e folder Hi Hfirst Hcount
                    |main w i a k r w' Hi Hact|main w i p r Hi Hfin];
    unfold set_futures; cbn [fst snd futures yielded] in *.
  - pose proof (act_lock_futures _ _ _ _ _ Hact) as Hlf.
    pose proof (act_yielded _ _ _ _ _ Hact) as Hy.
    destruct Hnew as [Hne _].
    destruct a as [f|f| | |o|u p|u|p|p|names| |e folder| |]; try done;
      cbn [waits] in Hwait.
    all: try (destruct Hlf as [_ ->]; rewrite Hy; apply Hwait).
    + destruct Hlf as (_ & _ & ->). rewrite Hy. apply Hwait.
    + destruct Hlf as [_ ->]. rewrite Hy, length_app. cbn [length].
      replace (length (futures w) + 1) with (S (length (futures w))) by lia.
      apply Hwait.
    + destruct Hlf as [_ ->]. destruct Hy as [_ ->]. apply Hwait.
  - now rewrite length_insert.
  - pose proof (act_lock_futures _ _ _ _ _ Hact) as Hlf.
    pose proof (act_yielded _ _ _ _ _ Hact) as Hy.
    pose proof (Hfut i _ Hi) as [[Hja _] _]. rewrite length_insert.
    destruct a as [f|f| | |o|u p|u|p|p|names| |e folder| |]; try discriminate.
    all: try (destruct Hlf as [_ ->]; rewrite Hy; exact Hwait).
    destruct Hlf as (_ & _ & ->). rewrite Hy. exact Hwait.
  - now rewrite length_insert.
Qed.

Lemma steps_collection_inv s s' :
  steps s s' → collection_inv s → collection_inv s'.
Proof. induction 1; eauto using step_collection_inv. Qed.




(** *** No run goes on for ever *)






Lemma sum_list_insert (ms : list nat) :
  ∀ i m m', ms !! i = Some m → sum_list (<[i := m']> ms) + m = sum_list ms + m'.
Proof.
  induction ms as [|x ms IH]; intros i m m' Hi; [discriminate|].
  destruct i as [|i].
  - injection Hi as ->.
    change (sum_list (<[0 := m']> (m :: ms))) with (m' + sum_list ms).
    change (sum_list (m :: ms)) with (m + sum_list ms). lia.
  - specialize (IH i m m' Hi).
    change (sum_list (<[S i := m']> (x :: ms))) with (x + sum_list (<[i := m']> ms)).
    change (sum_list (x :: ms)) with (x + sum_list ms). lia.
Qed.

Lemma step_futures_job_like s s' :
  step s s' →
  Forall future_job_like (futures s.2) → Forall future_job_like (futures s'.2).
Proof.
  intros Hstep Hfs.
  destruct Hstep as [a k w r w' Hact|main w i e folder Hi Hfirst Hcount
                    |main w i a k r w' Hi Hact|main w i p r Hi Hfin];
    unfold set_futures; cbn [fst snd futures] in *.
  - eapply act_futures_job_like; eauto.
  - apply Forall_insert; [exact Hfs|]. apply download_video_job_like.
  - pose proof (proj1 (Forall_lookup _ _) Hfs i _ Hi) as [_ Hk].
    apply Forall_insert; [|apply Hk]. eapply act_futures_job_like; eauto.
  - now apply Forall_insert.
Qed.






End Runs.

Section RunsExamples.
#[local] Existing Instance renders_all.




(** C6 fails on the code, in two ways. With an item whose title is [None]
    the sanitizer raises at line 210: the pool waits for the job of the
    first item and the error leaves the block before any future is handed
    over. With an item on disk whose skip notice the console refuses, the
    error leaves the block before the advance of line 215. Both runs end
    with no advance at all. *)
Lemma progress_advances_fewer :
  (∃ s, steps (ext := always_ok (Info None None) ∅) (con := renders_all)
              (download_entries (con := renders_all)
                 [song "Song A" "u1"; untitled "u2"] "out", initial ∅ tt) s
        ∧ terminal s
        ∧ advances (history s.2) = 0
        ∧ advances (history s.2) ≠ 0 + 2)
  ∧
  (∃ s, steps (ext := always_ok (Info None None) ∅) (con := skip_notice_refused)
              (download_entries (con := skip_notice_refused)
                 [song "Best of [/r/music]" "u1"] "out",
               initial {["Best of [_r_music].mp3"]} tt) s
        ∧ terminal s
        ∧ advances (history s.2) = 0
        ∧ advances (history s.2) ≠ 0 + 1).
Proof.
  split.
  - assert (Hrun :
      exec_schedule (ext := always_ok (Info None None) ∅) (con := renders_all)
        [0; 0; 0; 0; 1; 1; 1; 1; 1; 1; 1; 1; 1; 1; 1; 0]
        (download_entries (con := renders_all)
           [song "Song A" "u1"; untitled "u2"] "out", initial ∅ tt) =
      Some (Raise (TypeError "expected string or bytes-like object"),
            World {["Song A.mp3"]} None
                  [(0, EOut (AddTask 2)); (0, EContains "Song A.mp3" false);
                   (1, EContains "Song A.mp3" false);
                   (1, EAcquire); (1, EOut (Print (msg_downloading "Song A")));
                   (1, ERelease);
                   (1, EDownload (PyStr "u1") out_song_a None);
                   (1, EAcquire); (1, EOut (Print (msg_finished "Song A")));
                   (1, ERelease);
                   (1, EAdd "Song A.mp3")]
                  [Done (Returned true)] 0 tt))
      by (vm_compute; reflexivity).
    eexists. split; [exact (exec_schedule_sound _ _ _ Hrun)|].
    split; [split; [now eexists|reflexivity]|].
    split; [reflexivity|discriminate].
  - assert (Hrun :
      exec_schedule (ext := always_ok (Info None None) ∅) (con := skip_notice_refused)
        [0; 0; 0; 0; 0; 0]
        (download_entries (con := skip_notice_refused)
           [song "Best of [/r/music]" "u1"] "out",
         initial {["Best of [_r_music].mp3"]} tt) =
      Some (Raise (OtherException
                     "closing tag '[/r/music]' at position 70 doesn't match any open tag"),
            World {["Best of [_r_music].mp3"]} None
                  [(0, EOut (AddTask 1)); (0, EContains "Best of [_r_music].mp3" true);
                   (0, EAcquire); (0, ERelease)]
                  [] 0 tt))
      by (vm_compute; reflexivity).
    eexists. split; [exact (exec_schedule_sound _ _ _ Hrun)|].
    split; [split; [now eexists|reflexivity]|].
    split; [reflexivity|discriminate].
Defined.

End RunsExamples.

(** * Further properties of the code *)

(** ** The name sanitizer (line 46) *)

(** X1: a sanitized name has none of the nine reserved characters. *)
Theorem sanitize_folder_name_no_reserved (name : string) :
  Str.no_reserved (sanitize_folder_name name) = true.
Proof. apply re_sub_no_reserved. Qed.

(** X2: the names the sanitizer leaves as they are, are the names without
    reserved characters. *)
Theorem sanitize_folder_name_fixed_iff (name : string) :
  sanitize_folder_name name = name ↔ Str.no_reserved name = true.
Proof.
  split; [|apply re_sub_fixed].
  intros Heq. rewrite <- Heq. apply re_sub_no_reserved.
Qed.

Lemma re_sub_length s : ∀ skip, String.length (Str.re_sub skip s) ≤ String.length s.
Proof.
  induction s as [|c rest IH]; intros skip; [reflexivity|].
  destruct skip as [|n]; cbn [Str.re_sub String.length].
  - destruct (Str.match_len (String c rest)) as [|n]; cbn [String.length];
      [pose proof (IH 0)|pose proof (IH n)]; lia.
  - pose proof (IH n). lia.
Qed.

(** X3: sanitizing never makes a name longer. *)
Theorem sanitize_folder_name_length (name : string) :
  String.length (sanitize_folder_name name) ≤ String.length name.
Proof. apply re_sub_length. Qed.

Lemma same_shape_match_len s1 : ∀ s2,
  same_shape s1 s2 → Str.match_len s1 = Str.match_len s2.
Proof.
  induction s1 as [|c1 r1 IH]; intros [|c2 r2]; cbn; try done.
  intros [[->|[H1 H2]] Hrest].
  - now rewrite (IH _ Hrest).
  - now rewrite H1, H2, (IH _ Hrest).
Qed.

Lemma same_shape_re_sub s1 : ∀ s2 skip,
  same_shape s1 s2 → Str.re_sub skip s1 = Str.re_sub skip s2.
Proof.
  induction s1 as [|c1 r1 IH]; intros [|c2 r2] skip Hs; try done.
  pose proof (same_shape_match_len _ _ Hs) as Hlen.
  destruct Hs as [Hc Hrest]. cbn [Str.re_sub].
  destruct skip as [|n]; [|now apply IH].
  rewrite Hlen. destruct (Str.match_len (String c2 r2)) as [|n] eqn:Hm.
  - destruct Hc as [->|[H1 H2]]; [now rewrite (IH _ 0 Hrest)|].
    apply match_len_zero in Hm. congruence.
  - now rewrite (IH _ n Hrest).
Qed.

(** X4: which reserved character stands at a place makes no difference: two
    titles that differ only there get the same name (and so the same
    output file). *)
Theorem sanitize_folder_name_collides (s1 s2 : string) :
  same_shape s1 s2 → sanitize_folder_name s1 = sanitize_folder_name s2.
Proof. apply same_shape_re_sub. Qed.

Lemma sanitize_folder_name_collides_witness :
  same_shape "AC/DC: Live" "AC\DC? Live"
  ∧ sanitize_folder_name "AC/DC: Live" = sanitize_folder_name "AC\DC? Live".
Proof.
  assert (Hs : same_shape "AC/DC: Live" "AC\DC? Live").
  { cbn. repeat (split; [first [now left | right; split; reflexivity]|]). exact I. }
  split; [exact Hs|]. exact (sanitize_folder_name_collides _ _ Hs).
Defined.

Lemma match_len_app_keep a c b :
  Str.reserved c = false →
  Str.match_len (a +:+ String c b) = Str.match_len a.
Proof.
  intros Hc. induction a as [|x a IH].
  - rewrite app_empty. cbn [Str.match_len]. now rewrite Hc.
  - rewrite app_cons. cbn [Str.match_len]. now rewrite IH.
Qed.

Lemma re_sub_app_keep a c b :
  Str.reserved c = false →
  ∀ skip, skip ≤ Str.match_len a →
    Str.re_sub skip (a +:+ String c b)
    = Str.re_sub skip a +:+ String c (Str.re_sub 0 b).
Proof.
  intros Hc. induction a as [|x a IH]; intros skip Hskip.
  - cbn in Hskip. replace skip with 0 by lia. rewrite app_empty.
    cbn [Str.re_sub]. rewrite (proj2 (match_len_zero c b) Hc). reflexivity.
  - rewrite app_cons. cbn [Str.re_sub].
    change (String x (a +:+ String c b)) with (String x a +:+ String c b).
    rewrite (match_len_app_keep (String x a) c b Hc).
    cbn [Str.match_len] in Hskip |- *.
    destruct skip as [|n].
    + destruct (Str.reserved x).
      * rewrite IH by lia. now rewrite app_cons.
      * rewrite IH by lia. now rewrite app_cons.
    + destruct (Str.reserved x); [|lia]. apply IH. lia.
Qed.

(** X5: a character that is not reserved is kept where it is, and what stands
    before and after it is sanitized on its own. *)
Theorem sanitize_folder_name_app (a b : string) (c : ascii) :
  Str.reserved c = false →
  sanitize_folder_name (a +:+ String c b)
  = sanitize_folder_name a +:+ String c (sanitize_folder_name b).
Proof. intros Hc. apply re_sub_app_keep; [exact Hc|lia]. Qed.

Lemma sanitize_folder_name_app_witness :
  Str.reserved "-" = false
  ∧ sanitize_folder_name ("a/b" +:+ String "-" "c?d")
    = sanitize_folder_name "a/b" +:+ String "-" (sanitize_folder_name "c?d").
Proof.
  split; [reflexivity|]. exact (sanitize_folder_name_app "a/b" "c?d" "-" eq_refl).
Defined.

Lemma all_reserved_match_len run rest :
  all_reserved run = true →
  Str.match_len (run +:+ rest) = String.length run + Str.match_len rest.
Proof.
  induction run as [|c run IH]; [reflexivity|].
  cbn [all_reserved]. intros [Hc Hrun]%andb_true_iff.
  rewrite app_cons. cbn [Str.match_len String.length]. now rewrite Hc, IH.
Qed.

Lemma re_sub_skip_all run rest :
  Str.re_sub (String.length run) (run +:+ rest) = Str.re_sub 0 rest.
Proof.
  induction run as [|c run IH]; [reflexivity|].
  rewrite app_cons. exact IH.
Qed.

(** X6: a whole run of reserved characters gives one underscore. *)
Theorem sanitize_folder_name_run (c : ascii) (run rest : string) :
  all_reserved (String c run) = true →
  Str.match_len rest = 0 →
  sanitize_folder_name (String c run +:+ rest) = String "_" (sanitize_folder_name rest).
Proof.
  intros Hall Hrest. unfold sanitize_folder_name.
  pose proof (all_reserved_match_len _ rest Hall) as Hlen.
  rewrite app_cons in *. cbn [Str.re_sub]. rewrite Hlen, Hrest.
  cbn [String.length Nat.add]. rewrite Nat.add_0_r. now rewrite re_sub_skip_all.
Qed.

Lemma sanitize_folder_name_run_witness :
  all_reserved (String "<" "|>") = true
  ∧ Str.match_len "x" = 0
  ∧ sanitize_folder_name (String "<" "|>" +:+ "x") = String "_" (sanitize_folder_name "x").
Proof.
  split; [reflexivity|]. split; [reflexivity|].
  exact (sanitize_folder_name_run "<" "|>" "x" eq_refl eq_refl).
Defined.

(** ** The item download job (lines 97-144) *)

Section JobMore.
Context {env : Type} {ext : External env} {con : Console}.
Implicit Types (e : entry) (w : world env) (t : nat).


Lemma download_video_success_run e folder title u x t w :
  video_title e = PyStr title →
  sanitize_folder_name title +:+ ".mp3" ∉ existing_files w →
  e !! "url" = Some u →
  console_lock w = None →
  markup_error (msg_downloading title) = None →
  let f := sanitize_folder_name title +:+ ".mp3" in
  backend_download u (path_join folder f) (outside w) = (None, x) →
  run t (download_video e folder) w =
    (Some (Returned true),
     World ({[f]} ∪ existing_files w) None
           (history w ++
            [(t, EContains f false); (t, EAcquire);
             (t, EOut (Print (msg_downloading title))); (t, ERelease);
             (t, EDownload u (path_join folder f) None);
             (t, EAcquire); (t, EOut (Print (msg_finished title))); (t, ERelease);
             (t, EAdd f)])
           (futures w) (yielded w) x).
Proof.
  intros Ht Hin Hurl Hlock Hd f Hb.
  pose proof (download_video_reaches_backend e folder title u t w Ht Hin Hurl Hlock Hd)
    as Hrun.
  cbv zeta in Hrun. fold f in Hrun. rewrite Hb in Hrun. rewrite Hrun. clear Hrun.
  unfold console_print. rewrite (markup_error_finished _ Hd).
  destruct w as [files lock hist futs y x0]. simpl in *. subst lock.
  now world_simpl.
Qed.

(** X7: the success of the job: for an item that is not in the index, has
    a source reference and a download notice that renders, when the
    download returns, the job notifies the completion, adds the file name
    to the index and returns [True]. *)
Theorem download_video_succeeds e folder title u x t w :
  video_title e = PyStr title →
  sanitize_folder_name title +:+ ".mp3" ∉ existing_files w →
  e !! "url" = Some u →
  console_lock w = None →
  markup_error (msg_downloading title) = None →
  let f := sanitize_folder_name title +:+ ".mp3" in
  backend_download u (path_join folder f) (outside w) = (None, x) →
  run t (download_video e folder) w =
    (Some (Returned true),
     World ({[f]} ∪ existing_files w) None
           (history w ++
            [(t, EContains f false); (t, EAcquire);
             (t, EOut (Print (msg_downloading title))); (t, ERelease);
             (t, EDownload u (path_join folder f) None);
             (t, EAcquire); (t, EOut (Print (msg_finished title))); (t, ERelease);
             (t, EAdd f)])
           (futures w) (yielded w) x).
Proof. apply download_video_success_run. Qed.


(** X9: an exception of the download that is no [Exception], the interrupt of
    the user, is not caught: it leaves the job, after the lock has been
    given back and with the index as it was. The download is reached when
    the download notice renders. *)
Theorem download_video_lets_interrupt_through e folder title u exn x t w :
  video_title e = PyStr title →
  sanitize_folder_name title +:+ ".mp3" ∉ existing_files w →
  e !! "url" = Some u →
  console_lock w = None →
  markup_error (msg_downloading title) = None →
  let f := sanitize_folder_name title +:+ ".mp3" in
  backend_download u (path_join folder f) (outside w) = (Some exn, x) →
  is_Exception exn = false →
  run t (download_video e folder) w =
    (Some (Raised exn),
     World (existing_files w) None
           (history w ++
            [(t, EContains f false); (t, EAcquire);
             (t, EOut (Print (msg_downloading title))); (t, ERelease);
             (t, EDownload u (path_join folder f) (Some exn))])
           (futures w) (yielded w) x).
Proof.
  intros Ht Hin Hurl Hlock Hd f Hb Hexn.
  pose proof (download_video_reaches_backend e folder title u t w Ht Hin Hurl Hlock Hd)
    as Hrun.
  cbv zeta in Hrun. fold f in Hrun. rewrite Hb in Hrun. rewrite Hrun. clear Hrun.
  destruct w as [files lock hist futs y x0]. simpl in *. subst lock.
  cbn. rewrite Hexn. reflexivity.
Qed.

(** X10: a title that is there and is no text ([None]) makes the job raise
    [TypeError] at once: nothing is printed, tested or downloaded, whatever
    the state. *)
Theorem download_video_title_none e folder t w :
  e !! "title" = Some PyNone →
  ∃ msg, run t (download_video e folder) w = (Some (Raised (TypeError msg)), w).
Proof.
  intros Ht. unfold download_video.
  rewrite output_filename_none; [now eexists|].
  unfold video_title, dict_get. now rewrite Ht.
Qed.

(** X11: an error of the download whose message has [content isn't available]
    in any letter case is treated as the other transient errors are: the
    job waits 10 seconds and returns [False]. The notices of this path
    after the download notice are fixed texts. *)
Theorem download_video_content_unavailable e folder title u exn x t w :
  video_title e = PyStr title →
  sanitize_folder_name title +:+ ".mp3" ∉ existing_files w →
  e !! "url" = Some u →
  console_lock w = None →
  markup_error (msg_downloading title) = None →
  let f := sanitize_folder_name title +:+ ".mp3" in
  backend_download u (path_join folder f) (outside w) = (Some exn, x) →
  is_Exception exn = true →
  occurs_nocase "content isn't available" (exn_str exn) →
  run t (download_video e folder) w =
    (Some (Returned false),
     World (existing_files w) None
           (history w ++
            [(t, EContains f false); (t, EAcquire);
             (t, EOut (Print (msg_downloading title))); (t, ERelease);
             (t, EDownload u (path_join folder f) (Some exn));
             (t, EAcquire); (t, EOut (Print msg_unavailable)); (t, ERelease);
             (t, EOut (Sleep 10));
             (t, EAcquire); (t, EOut (Print msg_skip_video)); (t, ERelease)])
           (futures w) (yielded w) x).
Proof.
  intros Ht Hin Hurl Hlock Hd f Hb Hexn Hocc%contains_lower.
  rewrite (download_video_backend_error e folder title u exn x t w); try done.
  fold f. unfold is_transient. rewrite Hocc. cbn [orb]. now rewrite <- !app_assoc.
Qed.

(** X12: alone and with the lock free, the job always comes to its end, by a
    return or by an exception, and leaves the lock free. *)
Theorem download_video_ends_with_lock_free e folder t w :
  console_lock w = None →
  ∃ r w', run t (download_video e folder) w = (Some r, w') ∧ console_lock w' = None.
Proof.
  intros Hlock.
  destruct (download_video_returns e folder t w Hlock) as (r & w' & Hrun & Hl & _).
  now exists r, w'.
Qed.

Lemma no_reserved_app a b :
  Str.no_reserved (a +:+ b) = Str.no_reserved a && Str.no_reserved b.
Proof.
  induction a as [|c a IH]; [reflexivity|].
  rewrite app_cons. cbn [Str.no_reserved]. now rewrite IH, andb_assoc.
Qed.

Lemma output_name_no_reserved title :
  Str.no_reserved (sanitize_folder_name title +:+ ".mp3") = true.
Proof.
  unfold sanitize_folder_name. now rewrite no_reserved_app, re_sub_no_reserved.
Qed.

(** X13: the job calls the backend at most once, for the source reference of
    its own item, and the file it asks for is in the folder of the
    playlist: its name has no reserved character, so no separator of
    directories. *)
Theorem download_video_downloads_own_item e folder t w :
  ∃ evs : list (nat * event),
    history (run t (download_video e folder) w).2 = history w ++ evs ∧
    (downloads evs = []
     ∨ ∃ title u r,
         video_title e = PyStr title
         ∧ e !! "url" = Some u
         ∧ Str.no_reserved (sanitize_folder_name title +:+ ".mp3") = true
         ∧ downloads evs =
           [(t, EDownload u (path_join folder (sanitize_folder_name title +:+ ".mp3")) r)]).
Proof.
  unfold download_video, output_filename, dict_item, console_print.
  destruct w as [files lock hist futs y x0].
  destruct (video_title e) as [title|] eqn:Ht; cbn.
  2: { exists []. rewrite app_nil_r. split; [reflexivity|]. now left. }
  destruct (bool_decide (sanitize_folder_name title +:+ ".mp3" ∈ files)) eqn:Hdup;
    destruct lock as [holder|]; cbn.
  1-3: destruct (markup_error (msg_skipping title));
       world_simpl; eexists; (split; [reflexivity|]); now left.
  destruct (markup_error (msg_downloading title)) as [bad|] eqn:Hd; cbn.
  { world_simpl. eexists. split; [reflexivity|]. now left. }
  rewrite (markup_error_finished _ Hd).
  destruct (e !! "url") as [u|] eqn:Hurl; cbn.
  2: { rewrite key_error_url_not_transient.
       destruct (markup_error (msg_error _ _)); world_simpl;
         eexists; (split; [reflexivity|]); now left. }
  destruct (backend_download u _ x0) as [[exn|] x] eqn:Hb; cbn.
  - destruct (is_Exception exn);
      [destruct (is_transient _); [|destruct (markup_error (msg_error _ _))]|];
      world_simpl; eexists; (split; [reflexivity|]); right;
      exists title, u, (Some exn);
      (split; [reflexivity|]); (split; [reflexivity|]);
      (split; [apply output_name_no_reserved|reflexivity]).
  - world_simpl. eexists. split; [reflexivity|]. right.
    exists title, u, None.
    split; [reflexivity|]. split; [reflexivity|].
    split; [apply output_name_no_reserved|reflexivity].
Qed.

End JobMore.

Section JobMoreExamples.
#[local] Existing Instance renders_all.

Lemma download_video_succeeds_witness :
  run (ext := always_ok (Info None None) ∅) 1
      (download_video (song "Song A" "u1") "out") (initial ∅ tt) =
    (Some (Returned true),
     World ({["Song A.mp3"]} ∪ ∅) None
           [(1, EContains "Song A.mp3" false); (1, EAcquire);
            (1, EOut (Print (msg_downloading "Song A"))); (1, ERelease);
            (1, EDownload (PyStr "u1") out_song_a None);
            (1, EAcquire); (1, EOut (Print (msg_finished "Song A"))); (1, ERelease);
            (1, EAdd "Song A.mp3")]
           [] 0 tt).
Proof.
  refine (download_video_succeeds (ext := always_ok (Info None None) ∅)
            (song "Song A" "u1") "out" "Song A" (PyStr "u1") tt 1 (initial ∅ tt)
            eq_refl _ eq_refl eq_refl eq_refl eq_refl).
  apply (bool_decide_unpack _). vm_compute. exact I.
Defined.


Lemma download_video_lets_interrupt_through_witness :
  run (ext := interrupted) 1 (download_video (song "Song A" "u1") "out") (initial ∅ tt) =
    (Some (Raised KeyboardInterrupt),
     World ∅ None
           [(1, EContains "Song A.mp3" false); (1, EAcquire);
            (1, EOut (Print (msg_downloading "Song A"))); (1, ERelease);
            (1, EDownload (PyStr "u1") out_song_a (Some KeyboardInterrupt))]
           [] 0 tt).
Proof.
  refine (download_video_lets_interrupt_through (ext := interrupted)
            (song "Song A" "u1") "out" "Song A" (PyStr "u1") KeyboardInterrupt tt 1
            (initial ∅ tt) eq_refl _ eq_refl eq_refl eq_refl eq_refl eq_refl).
  apply (bool_decide_unpack _). vm_compute. exact I.
Defined.

Lemma download_video_title_none_witness :
  ∃ msg,
    run (ext := always_ok (Info None None) ∅) 1
        (download_video {[ "title" := PyNone; "url" := PyStr "u1" ]} "out")
        (initial {["None.mp3"]} tt) =
      (Some (Raised (TypeError msg)), initial {["None.mp3"]} tt).
Proof.
  exact (download_video_title_none (ext := always_ok (Info None None) ∅)
           {[ "title" := PyNone; "url" := PyStr "u1" ]} "out" 1
           (initial {["None.mp3"]} tt) eq_refl).
Defined.

Lemma download_video_content_unavailable_witness :
  run (ext := always_failing "Video unavailable. This Content Isn't Available.") 1
      (download_video (song "Song A" "u1") "out") (initial ∅ tt) =
    (Some (Returned false),
     World ∅ None
           [(1, EContains "Song A.mp3" false); (1, EAcquire);
            (1, EOut (Print (msg_downloading "Song A"))); (1, ERelease);
            (1, EDownload (PyStr "u1") out_song_a
                  (Some (OtherException "Video unavailable. This Content Isn't Available.")));
            (1, EAcquire); (1, EOut (Print msg_unavailable)); (1, ERelease);
            (1, EOut (Sleep 10));
            (1, EAcquire); (1, EOut (Print msg_skip_video)); (1, ERelease)]
           [] 0 tt).
Proof.
  refine (download_video_content_unavailable
            (ext := always_failing "Video unavailable. This Content Isn't Available.")
            (song "Song A" "u1") "out" "Song A" (PyStr "u1")
            (OtherException "Video unavailable. This Content Isn't Available.") tt 1
            (initial ∅ tt) eq_refl _ eq_refl eq_refl eq_refl eq_refl eq_refl _).
  - apply (bool_decide_unpack _). vm_compute. exact I.
  - now exists "Video unavailable. This ", "Content Isn't Available", ".".
Defined.

Lemma download_video_ends_with_lock_free_witness :
  ∃ r w', run (ext := always_failing "disk full") 1
              (download_video (song "Song A" "u1") "out") (initial ∅ tt) = (Some r, w')
          ∧ console_lock w' = None.
Proof.
  exact (download_video_ends_with_lock_free (ext := always_failing "disk full")
           (song "Song A" "u1") "out" 1 (initial ∅ tt) eq_refl).
Defined.

End JobMoreExamples.

(** ** The pool of a collection (lines 205-220) *)

Section PoolMore.
Context {env : Type} {ext : External env} {con : Console}.
Implicit Types (w : world env) (s : prog unit * world env) (fs : list future).

(** Before the pool is made the main thread has not ended; from then on
    the invariant of the collection holds. *)
Lemma download_entries_reached entries folder w s :
  console_lock w = None →
  all_done (futures w) →
  steps (download_entries entries folder, w) s →
  final s.1 = None ∨ collection_inv s.
Proof.
  intros Hlock Hdone Hsteps.
  assert (Hprog : download_entries entries folder =
                  Do (AEmit (AddTask (length entries)))
                     (λ _, Do ANewExecutor (λ _, executor_body entries folder)))
    by reflexivity.
  rewrite Hprog in Hsteps. clear Hprog.
  destruct w as [files lock hist futs y x0]. cbn in Hlock, Hdone. subst lock.
  pose proof (main_only_step (AEmit (AddTask (length entries)))
                (λ _, Do ANewExecutor (λ _, executor_body entries folder))
                (World files None hist futs y x0) _ _ Hdone eq_refl) as Hone.
  eapply only_step_inv in Hsteps; [|exact Hone].
  destruct Hsteps as [->|Hsteps]; [now left|].
  pose proof (main_only_step ANewExecutor (λ _, executor_body entries folder)
                (log 0 (EOut (AddTask (length entries)))
                     (World files None hist futs y x0)) _ _ Hdone eq_refl) as Htwo.
  eapply only_step_inv in Hsteps; [|exact Htwo].
  destruct Hsteps as [->|Hsteps]; [now left|].
  right. eapply steps_collection_inv; [exact Hsteps|].
  split; [split; [|split; [|split]]|]; cbn.
  - apply lock_ok_finally; [done|]. apply lock_ok_bind.
    + intros n. apply as_completed_loop_lock_ok.
    + apply submit_loop_lock_ok.
  - apply no_new_executor_finally; [done|]. apply no_new_executor_bind.
    + intros n. apply as_completed_loop_lock_ok.
    + apply submit_loop_lock_ok.
  - intros i f Hi. discriminate.
  - intros i Hl. discriminate.
  - apply executor_body_waits.
Qed.

(** X14: no thread keeps the lock: when a collection is done (the main thread
    has ended and no job is left), [console_lock] is free, whatever the
    items and whatever the order of the steps. *)
Theorem collection_ends_with_lock_free entries folder w s :
  console_lock w = None →
  all_done (futures w) →
  steps (download_entries entries folder, w) s →
  terminal s →
  console_lock s.2 = None.
Proof.
  intros Hlock Hdone Hsteps [[r Hfin] Hall].
  destruct (download_entries_reached _ _ _ _ Hlock Hdone Hsteps) as [Hno|Hinv];
    [congruence|].
  destruct Hinv as [(Hmain & _ & Hfut & Hbound) _].
  apply all_done_count in Hall.
  destruct (console_lock s.2) as [[|i]|] eqn:Hl; [| |reflexivity].
  - rewrite bool_decide_eq_true_2 in Hmain by done.
    destruct s.1; cbn in Hmain, Hfin; congruence.
  - pose proof (Hbound i eq_refl) as Hlen.
    destruct (lookup_lt_is_Some_2 _ _ Hlen) as [f Hi].
    pose proof (all_done_lookup _ _ _ Hall Hi) as Hd.
    pose proof (Hfut i f Hi) as Hf. destruct f; try discriminate. now cbn in Hf.
Qed.

Lemma no_new_index_as_completed n : no_new_index (in_pool (as_completed_loop n)).
Proof. induction n as [|n IH]; cbn; [done|]. intros _ _. exact IH. Qed.

Lemma no_new_index_submit_loop folder entries :
  ∀ nfut, no_new_index (in_pool (submit_loop entries folder nfut ≫= as_completed_loop)).
Proof.
  induction entries as [|e rest IH]; intros nfut.
  { apply no_new_index_as_completed. }
  cbn [submit_loop]. unfold output_filename, console_print.
  destruct (video_title e) as [title|]; split_prints; cbn; try done.
  all: intros r; destruct (as_bool r); cbn.
  all: repeat intros _; first [done | apply IH].
Qed.

Lemma no_new_index_download_entries entries folder :
  no_new_index (download_entries entries folder).
Proof. cbn. intros _ _. apply (no_new_index_submit_loop folder entries 0). Qed.

(** What an action other than the making of a new index does to the
    index: it adds the names it records as added. *)
Lemma act_index t a w r w' :
  act t a w = Some (r, w') →
  (∀ names, a ≠ ANewIndex names) →
  ∃ new, history w' = history w ++ new
         ∧ ∀ f, f ∈ existing_files w' ↔ f ∈ existing_files w ∨ added f new.
Proof.
  intros Hact Hnew.
  destruct a as [f0|f0| | |o|u p|u|p|p|names| |e folder| |]; cbn [act] in Hact.
  all: repeat case_match; try discriminate.
  all: injection Hact as <- <-.
  all: try (now destruct (Hnew names)).
  all: cbv [log set_files set_lock set_futures set_yielded set_outside
            existing_files history].
  2: { exists [(t, EAdd f0)]. split; [reflexivity|]. intros f. unfold added. split.
       - intros [->%elem_of_singleton|Hf]%elem_of_union; [|now left].
         right. exists t. constructor.
       - intros [Hf|[t' Ht']]; [set_solver|].
         apply list_elem_of_singleton in Ht'. injection Ht' as _ ->. set_solver. }
  all: try (eexists; split; [reflexivity|]; intros f; unfold added; split;
            [now left|]; intros [Hf|[t' Ht']]; [exact Hf|];
            apply list_elem_of_singleton in Ht'; discriminate).
  all: exists []; rewrite app_nil_r; (split; [reflexivity|]); intros f; unfold added;
       split; [now left|]; intros [Hf|[t' Ht']]; [exact Hf|]; now apply elem_of_nil in Ht'.
Qed.

Lemma job_action_not_new_index a : job_action a = true → ∀ names, a ≠ ANewIndex names.
Proof. intros Ha names ->. discriminate. Qed.

(** X15: while a collection is processed nothing is taken out of the index:
    at every moment it holds the names it had at the start and the names
    that the jobs have added since, and no other. *)
Theorem index_grows_by_additions entries folder w s :
  all_done (futures w) →
  steps (download_entries entries folder, w) s →
  ∃ evs, history s.2 = history w ++ evs
         ∧ ∀ f, f ∈ existing_files s.2 ↔ f ∈ existing_files w ∨ added f evs.
Proof.
  intros Hdone Hsteps.
  assert (Hinv : ∀ s0, steps s0 s →
     no_new_index s0.1 → Forall future_job_like (futures s0.2) →
     ∃ evs, history s.2 = history s0.2 ++ evs
            ∧ ∀ f, f ∈ existing_files s.2 ↔ f ∈ existing_files s0.2 ∨ added f evs).
  { clear. intros s0 Hsteps.
    induction Hsteps as [s|s0 s1 s Hstep Hrest IH]; intros Hmain Hjob.
    { exists []. rewrite app_nil_r. split; [reflexivity|]. intros f. split; [now left|].
      intros [Hf|[t Ht]]; [exact Hf|]. now apply elem_of_nil in Ht. }
    assert (Hone : ∃ new, history s1.2 = history s0.2 ++ new
              ∧ (∀ f, f ∈ existing_files s1.2 ↔ f ∈ existing_files s0.2 ∨ added f new)
              ∧ no_new_index s1.1).
    { destruct Hstep as [a k w r w' Hact|main w i e folder Hi Hfirst Hcount
                        |main w i a k r w' Hi Hact|main w i p r Hi Hfin];
        unfold set_futures; cbn [fst snd existing_files history] in *.
      - destruct (act_index _ _ _ _ _ Hact) as (new & Hh & Hf).
        { intros names ->. exact Hmain. }
        exists new. split; [exact Hh|]. split; [exact Hf|].
        destruct a; try apply Hmain. destruct Hmain.
      - exists []. rewrite app_nil_r. split; [reflexivity|]. split; [|exact Hmain].
        intros f. split; [now left|]. intros [Hf|[t Ht]]; [exact Hf|].
        now apply elem_of_nil in Ht.
      - pose proof (proj1 (Forall_lookup _ _) Hjob i _ Hi) as [Hja _].
        destruct (act_index _ _ _ _ _ Hact (job_action_not_new_index _ Hja))
          as (new & Hh & Hf).
        exists new. split; [exact Hh|]. split; [exact Hf|exact Hmain].
      - exists []. rewrite app_nil_r. split; [reflexivity|]. split; [|exact Hmain].
        intros f. split; [now left|]. intros [Hf|[t Ht]]; [exact Hf|].
        now apply elem_of_nil in Ht. }
    destruct Hone as (new & Hh1 & Hf1 & Hmain1).
    destruct (IH Hmain1 (step_futures_job_like _ _ Hstep Hjob)) as (evs & Hh & Hf).
    exists (new ++ evs). split; [now rewrite Hh, Hh1, app_assoc|].
    intros f. rewrite Hf, Hf1. unfold added. split.
    - intros [[H0|[t Ht]]|[t Ht]]; [now left| |];
        right; exists t; apply elem_of_app; auto.
    - intros [H0|[t [Ht|Ht]%elem_of_app]]; [now left; left| |].
      + left. right. now exists t.
      + right. now exists t. }
  apply (Hinv _ Hsteps); cbn.
  - apply no_new_index_download_entries.
  - eapply Forall_impl; [exact Hdone|]. now intros [| |].
Qed.

End PoolMore.

(** ** The loop over the collections (lines 174-226) *)

Section LoopMore.
Context {env : Type} {ext : External env} {con : Console}.
Implicit Types (w : world env) (s : prog unit * world env) (fs : list future).

Ltac forced_with tac :=
  eapply rtc_l;
  [ apply main_only_step;
    [cbn; first [assumption|constructor] | cbn; tac; reflexivity]
  | cbn ].

Ltac forced := forced_with idtac.


(** X19: a collection whose title is [None]: the sanitizer raises on it
    (line 181), before the directory is made; when the line of the URL and
    the notice of that error render, the error is caught by the handler of
    line 224 and the loop goes on with the next collection. *)
Theorem playlist_title_none total idx url rest out (k : unit → prog unit) w i x1 :
  all_done (futures w) →
  backend_extract_info url (outside w) = (inr i, x1) →
  info_title i = Some PyNone →
  markup_error (msg_url url) = None →
  ∃ msg,
    call_sanitize_folder_name PyNone = Raise (TypeError msg)
    ∧ (markup_error (msg_failed msg) = None →
       dsteps (playlist_loop total idx (url :: rest) out ≫= k, w)
              (playlist_loop total (S idx) rest out ≫= k,
               World (existing_files w) (console_lock w)
                     (history w ++ [(0, EOut (Rule (msg_rule idx total)));
                                    (0, EOut (Print (msg_url url)));
                                    (0, EOut (Print (msg_failed msg)));
                                    (0, EOut (Print msg_next_playlist))])
                     (futures w) (yielded w) x1)).
Proof.
  intros Hall Hres Htitle Hu. eexists. split; [reflexivity|]. intros Hf.
  destruct w as [files lock hist futs y x]. cbn in *.
  unfold console_print. rewrite Hu.
  forced. forced.
  forced_with ltac:(rewrite Hres). rewrite Htitle. cbn. rewrite Hf.
  forced. forced. world_simpl. apply rtc_refl.
Qed.


(** X21: the handler of line 224 catches [Exception] only: when the user
    interrupts the resolving of a collection (which is reached when the
    line of the URL renders), the interrupt leaves the loop. The remaining
    collections are not processed and neither the failure notice nor what
    follows the loop is reached. *)
Theorem playlist_interrupt_leaves_loop total idx url rest out (k : unit → prog unit) w x1 :
  all_done (futures w) →
  backend_extract_info url (outside w) = (inl KeyboardInterrupt, x1) →
  markup_error (msg_url url) = None →
  dsteps (playlist_loop total idx (url :: rest) out ≫= k, w)
         (Raise KeyboardInterrupt,
          World (existing_files w) (console_lock w)
                (history w ++ [(0, EOut (Rule (msg_rule idx total)));
                               (0, EOut (Print (msg_url url)))])
                (futures w) (yielded w) x1).
Proof.
  intros Hall Hres Hu. destruct w as [files lock hist futs y x]. cbn in *.
  unfold console_print. rewrite Hu.
  forced. forced.
  forced_with ltac:(rewrite Hres).
  world_simpl. apply rtc_refl.
Qed.




End LoopMore.

(** ** The loop on concrete collections *)

Section LoopMoreExamples.
#[local] Existing Instance renders_all.


Lemma playlist_title_none_witness :
  ∃ msg,
    call_sanitize_folder_name PyNone = Raise (TypeError msg)
    ∧ dsteps (ext := always_ok (Info (Some PyNone) None) ∅)
             (playlist_loop 1 1 ["u"] "downloads" ≫= Ret, initial ∅ tt)
             (playlist_loop 1 2 [] "downloads" ≫= Ret,
              World ∅ None
                    ([] ++ [(0, EOut (Rule (msg_rule 1 1)));
                            (0, EOut (Print (msg_url "u")));
                            (0, EOut (Print (msg_failed msg)));
                            (0, EOut (Print msg_next_playlist))])
                    [] 0 tt).
Proof.
  destruct (playlist_title_none (ext := always_ok (Info (Some PyNone) None) ∅)
              (con := renders_all)
              1 1 "u" [] "downloads" Ret (initial ∅ tt) (Info (Some PyNone) None) tt
              (Forall_nil_2 _) eq_refl eq_refl eq_refl) as (msg & Hraise & Hrun).
  exists msg. split; [exact Hraise|]. exact (Hrun eq_refl).
Defined.


Lemma playlist_interrupt_leaves_loop_witness :
  dsteps (ext := interrupted_resolve)
         (playlist_loop 2 1 ["u"; "v"] "downloads" ≫= Ret, initial ∅ tt)
         (Raise KeyboardInterrupt,
          World ∅ None
                [(0, EOut (Rule (msg_rule 1 2))); (0, EOut (Print (msg_url "u")))]
                [] 0 tt).
Proof.
  apply (playlist_interrupt_leaves_loop (ext := interrupted_resolve) (con := renders_all)
           2 1 "u" ["v"] "downloads" Ret (initial ∅ tt) tt).
  - constructor.
  - reflexivity.
  - reflexivity.
Defined.



End LoopMoreExamples.

(** ** The downloads of a collection (lines 205-220) *)

Section PoolDownloads.
Context {env : Type} {ext : External env} {con : Console}.
Implicit Types (w : world env) (s : prog unit * world env) (fs : list future).

Lemma downloads_le_mono {A : Type} (p : prog A) :
  ∀ n n', downloads_le n p → n ≤ n' → downloads_le n' p.
Proof.
  induction p as [a|e|a k IH]; intros n n'; cbn [downloads_le]; [done|done|].
  intros [Hle Hk] Hn. split; [lia|]. intros r. eapply IH; [apply Hk|lia].
Qed.

(** A job calls the backend at most once. *)
Lemma download_video_downloads_le e folder : downloads_le 1 (download_video e folder).
Proof.
  unfold download_video, output_filename, dict_item, console_print.
  destruct (video_title e) as [title|]; cbn; [|done].
  split; [lia|]. intros r. destruct (as_bool r); cbn.
  { split_prints; cbn; repeat (split; [lia|]; intros _); done. }
  split; [lia|]. intros _.
  destruct (markup_error (msg_downloading title)) eqn:Hd; cbn;
    repeat (split; [lia|]; intros _); [done|].
  rewrite (markup_error_finished _ Hd).
  destruct (e !! "url") as [u|]; cbn.
  - split; [lia|]. intros r'. destruct (as_exn r') as [exn|]; cbn.
    + destruct (is_Exception exn); [|done]. cbn.
      split; [lia|]. intros _. destruct (is_transient _); cbn;
        split_prints; cbn; repeat (split; [lia|]; intros _); done.
    + repeat (split; [lia|]; intros _). done.
  - split; [lia|]. intros _. rewrite key_error_url_not_transient. cbn.
    split_prints; cbn; repeat (split; [lia|]; intros _); done.
Qed.

Lemma as_completed_loop_downloads_le n : downloads_le 0 (in_pool (as_completed_loop n)).
Proof.
  induction n as [|n IH]; cbn.
  - split; [lia|done].
  - split; [lia|]. intros _. split; [lia|]. intros _. exact IH.
Qed.

Lemma submit_loop_downloads_le folder entries :
  ∀ nfut, downloads_le (length entries)
            (in_pool (submit_loop entries folder nfut ≫= as_completed_loop)).
Proof.
  induction entries as [|e rest IH]; intros nfut.
  { apply as_completed_loop_downloads_le. }
  cbn [submit_loop length]. unfold output_filename, console_print.
  destruct (video_title e) as [title|]; split_prints; cbn.
  all: try (split; [lia|done]).
  all: split; [lia|]; intros r; destruct (as_bool r); cbn.
  all: repeat (split; [lia|]; intros _).
  all: first [ done
             | eapply downloads_le_mono; [apply (IH nfut)|lia]
             | eapply downloads_le_mono; [apply (IH (S nfut))|lia] ].
Qed.

Lemma download_entries_downloads_le entries folder :
  downloads_le (length entries) (download_entries entries folder).
Proof.
  unfold download_entries, with_executor. cbn.
  split; [lia|]. intros _. split; [lia|]. intros _.
  eapply downloads_le_mono; [apply (submit_loop_downloads_le folder entries 0)|lia].
Qed.

(** What an action adds to the history, and the downloads in it. *)
Lemma act_downloads t a w r w' :
  act t a w = Some (r, w') →
  ∃ new, history w' = history w ++ new
         ∧ length (downloads new) = match a with ADownload _ _ => 1 | _ => 0 end.
Proof.
  destruct a as [f|f| | |o|u p|u|p|p|names| |e folder| |]; cbn [act].
  all: repeat case_match; try discriminate.
  all: intros [= <- <-].
  all: cbv [log set_files set_lock set_futures set_yielded set_outside history].
  all: first [ eexists; split; [reflexivity|]; reflexivity
             | exists []; rewrite app_nil_r; split; reflexivity ].
Qed.

Lemma all_done_downloads fs :
  all_done fs → Forall2 future_downloads fs (replicate (length fs) 0).
Proof.
  induction 1 as [|f fs Hf _ IH]; cbn; constructor; [|exact IH].
  now destruct f.
Qed.

Lemma sum_list_replicate_0 n : sum_list (replicate n 0) = 0.
Proof. induction n as [|n IH]; [reflexivity|exact IH]. Qed.

(** The downloads made and those that can still come, of the main thread
    and of the jobs, never grow. *)
Lemma step_downloads s s' n :
  step s s' →
  Forall future_job_like (futures s.2) →
  (∃ m ms, downloads_le m s.1 ∧ Forall2 future_downloads (futures s.2) ms
           ∧ length (downloads (history s.2)) + m + sum_list ms ≤ n) →
  (∃ new, history s'.2 = history s.2 ++ new)
  ∧ ∃ m ms, downloads_le m s'.1 ∧ Forall2 future_downloads (futures s'.2) ms
            ∧ length (downloads (history s'.2)) + m + sum_list ms ≤ n.
Proof.
  intros Hstep Hjob (m & ms & Hmain & Hfs & Hn).
  destruct Hstep as [a k w r w' Hact|main w i e folder Hi Hfirst Hcount
                    |main w i a k r w' Hi Hact|main w i p r Hi Hfin];
    unfold set_futures; cbn [fst snd futures history] in *.
  - pose proof (act_lock_futures _ _ _ _ _ Hact) as Hlf.
    destruct (act_downloads _ _ _ _ _ Hact) as (new & Hh & Hd).
    split; [now exists new|].
    rewrite Hh. unfold downloads in *. rewrite filter_app, length_app, Hd.
    destruct Hmain as [Hle Hk].
    destruct a as [f|f| | |o|u p|u|p|p|names| |e folder| |];
      cbn [download_cost] in Hle, Hk.
    all: try (destruct Hlf as [_ ->]; exists m, ms;
              split; [rewrite <- (Nat.sub_0_r m); apply Hk|]; split; [exact Hfs|lia]).
    + destruct Hlf as (_ & _ & ->). exists m, ms.
      split; [rewrite <- (Nat.sub_0_r m); apply Hk|]. split; [exact Hfs|lia].
    + destruct Hlf as [_ ->]. exists (m - 1), ms.
      split; [apply Hk|]. split; [exact Hfs|lia].
    + destruct Hlf as [_ ->]. exists m, [].
      split; [rewrite <- (Nat.sub_0_r m); apply Hk|]. split; [constructor|].
      change (sum_list []) with 0. lia.
    + destruct Hlf as [_ ->]. exists (m - 1), (ms ++ [1]).
      split; [apply Hk|]. split.
      * apply Forall2_app; [exact Hfs|]. now repeat constructor.
      * rewrite sum_list_with_app. change (sum_list [1]) with (1 + 0). lia.
  - split; [exists []; now rewrite app_nil_r|].
    destruct (Forall2_lookup_l _ _ _ _ _ Hfs Hi) as (mi & Hmi & Hcost).
    cbn in Hcost. subst mi.
    pose proof (sum_list_insert ms i _ 1 Hmi) as Hsum.
    exists m, (<[i := 1]> ms). split; [exact Hmain|]. split; [|lia].
    apply Forall2_insert; [exact Hfs|]. apply download_video_downloads_le.
  - pose proof (act_lock_futures _ _ _ _ _ Hact) as Hlf.
    destruct (act_downloads _ _ _ _ _ Hact) as (new & Hh & Hd).
    split; [now exists new|].
    rewrite Hh. unfold downloads in *. rewrite filter_app, length_app, Hd.
    pose proof (proj1 (Forall_lookup _ _) Hjob i _ Hi) as [Hja _].
    destruct (Forall2_lookup_l _ _ _ _ _ Hfs Hi) as (mi & Hmi & [Hle Hk]).
    pose proof (sum_list_insert ms i _ (mi - download_cost a) Hmi) as Hsum.
    assert (Hsame : futures w' = futures w
                    ∧ match a with ADownload _ _ => 1 | _ => 0 end = download_cost a).
    { destruct a as [f|f| | |o|u p|u|p|p|names| |e folder| |]; try discriminate;
        split; try reflexivity; now destruct Hlf as (? & ?). }
    destruct Hsame as [-> ->].
    exists m, (<[i := mi - download_cost a]> ms). split; [exact Hmain|]. split; [|lia].
    apply Forall2_insert; [exact Hfs|]. apply Hk.
  - split; [exists []; now rewrite app_nil_r|].
    destruct (Forall2_lookup_l _ _ _ _ _ Hfs Hi) as (mi & Hmi & _).
    pose proof (sum_list_insert ms i _ 0 Hmi) as Hsum.
    exists m, (<[i := 0]> ms). split; [exact Hmain|]. split; [|lia].
    apply Forall2_insert; [exact Hfs|]. reflexivity.
Qed.

(** X16: a collection never leads to more calls of the backend than it has
    items: in every run, whatever the order of the steps and whatever the
    backend answers, the downloads in the history since the start of the
    collection are no more than the items. *)
Theorem downloads_no_more_than_items entries folder w s :
  all_done (futures w) →
  steps (download_entries entries folder, w) s →
  ∃ evs, history s.2 = history w ++ evs
         ∧ length (downloads evs) ≤ length entries.
Proof.
  intros Hdone Hsteps.
  assert (Hinv : ∀ n s0, steps s0 s →
     Forall future_job_like (futures s0.2) →
     (∃ m ms, downloads_le m s0.1 ∧ Forall2 future_downloads (futures s0.2) ms
              ∧ length (downloads (history s0.2)) + m + sum_list ms ≤ n) →
     ∃ evs, history s.2 = history s0.2 ++ evs
            ∧ length (downloads (history s.2)) ≤ n).
  { clear. intros n s0 Hsteps.
    induction Hsteps as [s|s0 s1 s Hstep Hrest IH]; intros Hjob Hinv.
    { exists []. rewrite app_nil_r. split; [reflexivity|].
      destruct Hinv as (m & ms & _ & _ & Hn). lia. }
    destruct (step_downloads _ _ _ Hstep Hjob Hinv) as [[new Hnew] Hinv1].
    destruct (IH (step_futures_job_like _ _ Hstep Hjob) Hinv1) as (evs & Hh & Hle).
    exists (new ++ evs). split; [|exact Hle]. now rewrite Hh, Hnew, app_assoc. }
  destruct (Hinv (length (downloads (history w)) + length entries) _ Hsteps)
    as (evs & Hh & Hle); cbn [fst snd].
  - eapply Forall_impl; [exact Hdone|]. now intros [| |].
  - exists (length entries), (replicate (length (futures w)) 0).
    split; [apply download_entries_downloads_le|].
    split; [now apply all_done_downloads|].
    rewrite sum_list_replicate_0. lia.
  - cbn [fst snd] in Hh, Hle. exists evs. split; [exact Hh|].
    rewrite Hh in Hle. unfold downloads in *.
    rewrite filter_app, length_app in Hle. lia.
Qed.

End PoolDownloads.

(** ** The pool on a collection of one item *)

Section PoolExamples.
#[local] Existing Instance renders_all.

Lemma solo_run :
  exec_schedule (ext := always_ok (Info None None) ∅) solo_schedule
    (download_entries one_song "out", initial ∅ tt) =
  Some (Ret tt,
        World {["Song A.mp3"]} None solo_history [Done (Returned true)] 1 tt).
Proof. vm_compute. reflexivity. Qed.

Lemma collection_ends_with_lock_free_witness :
  ∃ s, steps (ext := always_ok (Info None None) ∅)
             (download_entries one_song "out", initial ∅ tt) s
       ∧ terminal s
       ∧ console_lock s.2 = None.
Proof.
  pose proof (exec_schedule_sound _ _ _ solo_run) as Hsteps.
  assert (Hterm : terminal
            (Ret tt, World (env := unit) {["Song A.mp3"]} None solo_history
                           [Done (Returned true)] 1 tt))
    by (split; [now eexists|reflexivity]).
  eexists. split; [exact Hsteps|]. split; [exact Hterm|].
  exact (collection_ends_with_lock_free (ext := always_ok (Info None None) ∅)
           one_song "out" (initial ∅ tt) _ eq_refl (Forall_nil_2 _) Hsteps Hterm).
Defined.

Lemma index_grows_by_additions_witness :
  ∃ s evs, steps (ext := always_ok (Info None None) ∅)
                 (download_entries one_song "out", initial ∅ tt) s
           ∧ s.1 = Ret tt
           ∧ history s.2 = [] ++ evs
           ∧ ∀ f, f ∈ existing_files s.2 ↔ f ∈ (∅ : gset string) ∨ added f evs.
Proof.
  pose proof (exec_schedule_sound _ _ _ solo_run) as Hsteps.
  destruct (index_grows_by_additions (ext := always_ok (Info None None) ∅)
              one_song "out" (initial ∅ tt) _ (Forall_nil_2 _) Hsteps)
    as (evs & Hh & Hf).
  eexists. exists evs. split; [exact Hsteps|]. split; [reflexivity|].
  split; [exact Hh|exact Hf].
Defined.

Lemma downloads_no_more_than_items_witness :
  ∃ s evs, steps (ext := always_ok (Info None None) ∅)
                 (download_entries one_song "out", initial ∅ tt) s
           ∧ s.1 = Ret tt
           ∧ history s.2 = [] ++ evs
           ∧ length (downloads evs) ≤ 1.
Proof.
  pose proof (exec_schedule_sound _ _ _ solo_run) as Hsteps.
  destruct (downloads_no_more_than_items (ext := always_ok (Info None None) ∅)
              one_song "out" (initial ∅ tt) _ (Forall_nil_2 _) Hsteps)
    as (evs & Hh & Hle).
  eexists. exists evs. split; [exact Hsteps|]. split; [reflexivity|].
  split; [exact Hh|exact Hle].
Defined.

End PoolExamples.

(** ** What a collection downloads (lines 205-220) *)

Section PoolItems.
Context {env : Type} {ext : External env} {con : Console}.
Implicit Types (w : world env) (s : prog unit * world env) (fs : list future).

Lemma download_video_from_collection entries e folder :
  e ∈ entries → from_collection entries folder (download_video e folder).
Proof.
  intros He. unfold download_video, output_filename, dict_item, console_print.
  destruct (video_title e) as [title|] eqn:Ht; cbn; [|done].
  split; [done|]. intros r. destruct (as_bool r); cbn.
  { split_prints; cbn; repeat (split; [done|]; intros _); done. }
  split; [done|]. intros _.
  destruct (markup_error (msg_downloading title)) eqn:Hd; cbn;
    repeat (split; [done|]; intros _); [done|].
  rewrite (markup_error_finished _ Hd).
  destruct (e !! "url") as [u|] eqn:Hu; cbn.
  - split; [now exists e, title|]. intros r'. destruct (as_exn r') as [exn|]; cbn.
    + destruct (is_Exception exn); [|done]. cbn.
      split; [done|]. intros _. destruct (is_transient _); cbn;
        split_prints; cbn; repeat (split; [done|]; intros _); done.
    + repeat (split; [done|]; intros _). done.
  - split; [done|]. intros _. rewrite key_error_url_not_transient. cbn.
    split_prints; cbn; repeat (split; [done|]; intros _); done.
Qed.

Lemma as_completed_loop_from_collection entries folder n :
  from_collection entries folder (in_pool (as_completed_loop n)).
Proof.
  induction n as [|n IH]; cbn; [done|].
  split; [done|]. intros _. split; [done|]. intros _. exact IH.
Qed.

Lemma submit_loop_from_collection entries folder es :
  Forall (λ e, e ∈ entries) es →
  ∀ nfut, from_collection entries folder
            (in_pool (submit_loop es folder nfut ≫= as_completed_loop)).
Proof.
  induction 1 as [|e rest He _ IH]; intros nfut.
  { apply as_completed_loop_from_collection. }
  cbn [submit_loop]. unfold output_filename, console_print.
  destruct (video_title e) as [title|]; split_prints; cbn; try done.
  all: split; [done|]; intros r; destruct (as_bool r); cbn.
  all: repeat (split; [done|]; intros _); first [done|apply IH].
Qed.

Lemma download_entries_from_collection entries folder :
  from_collection entries folder (download_entries entries folder).
Proof.
  unfold download_entries, with_executor. cbn.
  split; [done|]. intros _. split; [done|]. intros _.
  apply submit_loop_from_collection. apply Forall_forall. auto.
Qed.

(** What an action of the collection adds to the history and to the
    futures. *)
Lemma act_from_collection entries folder t a w r w' :
  act t a w = Some (r, w') →
  action_from_collection entries folder a →
  Forall (future_from_collection entries folder) (futures w) →
  (∃ new, history w' = history w ++ new
          ∧ Forall (event_from_collection entries folder) new)
  ∧ Forall (future_from_collection entries folder) (futures w').
Proof.
  destruct a as [f|f| | |o|u p|u|p|p|names| |e folder'| |]; cbn [act].
  all: repeat case_match; try discriminate.
  all: intros [= <- <-] Ha Hfs.
  all: cbv [log set_files set_lock set_futures set_yielded set_outside history futures].
  all: split;
       [ first [ eexists; split; [reflexivity|]; now repeat constructor
               | exists []; rewrite app_nil_r; split; [reflexivity|constructor] ] |].
  all: try exact Hfs.
  - constructor.
  - apply Forall_app. split; [exact Hfs|]. constructor; [exact Ha|constructor].
Qed.

Lemma step_from_collection entries folder s s' :
  step s s' →
  from_collection entries folder s.1 →
  Forall (future_from_collection entries folder) (futures s.2) →
  (∃ new, history s'.2 = history s.2 ++ new
          ∧ Forall (event_from_collection entries folder) new)
  ∧ from_collection entries folder s'.1
  ∧ Forall (future_from_collection entries folder) (futures s'.2).
Proof.
  intros Hstep Hmain Hfs.
  destruct Hstep as [a k w r w' Hact|main w i e folder' Hi Hfirst Hcount
                    |main w i a k r w' Hi Hact|main w i p r Hi Hfin];
    unfold set_futures; cbn [fst snd futures history] in *.
  - destruct Hmain as [Ha Hk].
    destruct (act_from_collection _ _ _ _ _ _ _ Hact Ha Hfs) as [Hnew Hfs'].
    split; [exact Hnew|]. split; [apply Hk|exact Hfs'].
  - split; [exists []; rewrite app_nil_r; split; [reflexivity|constructor]|].
    split; [exact Hmain|].
    pose proof (proj1 (Forall_lookup _ _) Hfs i _ Hi) as [He ->].
    apply Forall_insert; [exact Hfs|]. now apply download_video_from_collection.
  - pose proof (proj1 (Forall_lookup _ _) Hfs i _ Hi) as [Ha Hk].
    destruct (act_from_collection _ _ _ _ _ _ _ Hact Ha Hfs) as [Hnew Hfs'].
    split; [exact Hnew|]. split; [exact Hmain|].
    destruct (decide (i < length (futures w'))) as [Hlt|Hge].
    + apply Forall_insert; [exact Hfs'|]. apply Hk.
    + rewrite list_insert_ge by lia. exact Hfs'.
  - split; [exists []; rewrite app_nil_r; split; [reflexivity|constructor]|].
    split; [exact Hmain|]. now apply Forall_insert.
Qed.

(** X17: a collection downloads its own items only, and into its own folder:
    in every run, whatever the order of the steps, each download since the
    start of the collection has the reference of an item of the collection
    and goes to the file named after the sanitized title of that item in
    the folder of the collection. *)
Theorem downloads_are_items_of_collection entries folder w s :
  all_done (futures w) →
  steps (download_entries entries folder, w) s →
  ∃ evs, history s.2 = history w ++ evs
         ∧ ∀ t url outtmpl r, (t, EDownload url outtmpl r) ∈ evs →
             download_of entries folder url outtmpl.
Proof.
  intros Hdone Hsteps.
  assert (Hinv : ∀ s0, steps s0 s →
     from_collection entries folder s0.1 →
     Forall (future_from_collection entries folder) (futures s0.2) →
     ∃ evs, history s.2 = history s0.2 ++ evs
            ∧ Forall (event_from_collection entries folder) evs).
  { clear. intros s0 Hsteps.
    induction Hsteps as [s|s0 s1 s Hstep Hrest IH]; intros Hmain Hfs.
    { exists []. rewrite app_nil_r. split; [reflexivity|constructor]. }
    destruct (step_from_collection _ _ _ _ Hstep Hmain Hfs)
      as ((new & Hnew & Hok) & Hmain1 & Hfs1).
    destruct (IH Hmain1 Hfs1) as (evs & Hh & Hevs).
    exists (new ++ evs). split; [now rewrite Hh, Hnew, app_assoc|].
    apply Forall_app. now split. }
  destruct (Hinv _ Hsteps) as (evs & Hh & Hevs); cbn [fst snd].
  - apply download_entries_from_collection.
  - eapply Forall_impl; [exact Hdone|]. now intros [| |].
  - exists evs. split; [exact Hh|].
    intros t url outtmpl r Hin.
    exact (proj1 (Forall_forall _ _) Hevs _ Hin).
Qed.

End PoolItems.

Section PoolItemsExamples.
#[local] Existing Instance renders_all.

Lemma downloads_are_items_of_collection_witness :
  ∃ s evs, steps (ext := always_ok (Info None None) ∅)
                 (download_entries one_song "out", initial ∅ tt) s
           ∧ s.1 = Ret tt
           ∧ history s.2 = [] ++ evs
           ∧ ∀ t url outtmpl r, (t, EDownload url outtmpl r) ∈ evs →
               download_of one_song "out" url outtmpl.
Proof.
  pose proof (exec_schedule_sound _ _ _ solo_run) as Hsteps.
  destruct (downloads_are_items_of_collection (ext := always_ok (Info None None) ∅)
              one_song "out" (initial ∅ tt) _ (Forall_nil_2 _) Hsteps)
    as (evs & Hh & Hok).
  eexists. exists evs. split; [exact Hsteps|]. split; [reflexivity|].
  split; [exact Hh|exact Hok].
Defined.

End PoolItemsExamples.

(** ** A collection that is already on disk (lines 174-222) *)

Section Rerun.
Context {env : Type} {ext : External env} {con : Console}.
Implicit Types (w : world env) (s : prog unit * world env) (fs : list future).


Ltac forced_with tac :=
  eapply rtc_l;
  [ apply main_only_step; [cbn; first [assumption|constructor] | cbn; tac; reflexivity]
  | cbn ].

Ltac forced := forced_with idtac.


End Rerun.

Section RerunExamples.
#[local] Existing Instance renders_all.


End RerunExamples.
